(** * key.js: a JSON key-value store behind an Express router

    Shallow embedding of [stores/memory.js], [stores/postgres.js] (with the
    table and the [upsert] function of [stores/pg_init.sql]) and of the
    router of [key.js], and the properties of the store contract and of the
    request-to-store mapping.

    JavaScript values are a first-order data type; an object keeps its own
    properties in creation order together with its prototype slot, because
    the stores use plain objects as maps and the names coming from clients
    share a name space with [Object.prototype].  A promise is represented by
    the way it settles; every store operation returns it with the next state
    of the store. *)

From Stdlib Require Import List String Ascii ZArith Bool Lia Permutation.
Import ListNotations.
Local Open Scope string_scope.

Set Implicit Arguments.
Local Set Warnings "-register-all".

(** ** JavaScript values *)

Module JS.

(** [VObj proto props]: [proto = None] is an object whose prototype is
    [Object.prototype] (every object literal, everything [JSON.parse]
    makes); [Some p] an object whose prototype was replaced by [p].
    [VBuiltin n] stands for the built-in object or function named [n].
    Numbers are the integers: the program does nothing with a number but
    test it for zero. *)
Inductive value : Type :=
| VUndefined
| VNull
| VBool (b : bool)
| VNum (n : Z)
| VStr (s : string)
| VArr (elems : list value)
| VObj (proto : option value) (props : list (string * value))
| VBuiltin (name : string).

(** An object as a record: the shape of [VObj]. *)
Record object : Type := Obj { proto : option value; props : list (string * value) }.

Definition of_object (o : object) : value := VObj (proto o) (props o).

(** The object literal [{}]. *)
Definition empty : object := Obj None [].

(** The own property names of [Object.prototype]. *)
Definition object_prototype_names : list string :=
  [ "constructor"; "__defineGetter__"; "__defineSetter__"; "hasOwnProperty";
    "__lookupGetter__"; "__lookupSetter__"; "isPrototypeOf";
    "propertyIsEnumerable"; "toString"; "valueOf"; "__proto__";
    "toLocaleString" ].

Definition PROTO : string := "__proto__".

Fixpoint lookup (ps : list (string * value)) (k : string) : option value :=
  match ps with
  | [] => None
  | (k', v) :: rest => if String.eqb k' k then Some v else lookup rest k
  end.

Fixpoint replace (ps : list (string * value)) (k : string) (v : value)
  : list (string * value) :=
  match ps with
  | [] => []
  | (k', v') :: rest =>
      if String.eqb k' k then (k', v) :: rest else (k', v') :: replace rest k v
  end.

Definition remove (ps : list (string * value)) (k : string)
  : list (string * value) :=
  filter (fun p => negb (String.eqb (fst p) k)) ps.

(** [Object.keys(o)]: the own property names.  They are listed in creation
    order; V8 lists array-index-like names first, an order no statement below
    depends on. *)
Definition keys (o : object) : list string := map fst (props o).

(** Where a name resolves along a prototype chain: an own data property,
    the [__proto__] accessor of [Object.prototype], another built-in of
    [Object.prototype], or nowhere. *)
Inductive slot : Type :=
| Data (x : value)
| ProtoAccessor
| Builtin (name : string)
| Missing.

Definition object_prototype_slot (k : string) : slot :=
  if String.eqb k PROTO then ProtoAccessor
  else if in_dec string_dec k object_prototype_names then Builtin k
  else Missing.

(** Arrays and primitives end in [Object.prototype] too; their indices,
    [length] and the methods of their own prototypes are not modelled: the
    program reads none of them.  [VNull] is the end of a chain cut by a
    [null] prototype. *)
Fixpoint resolve (v : value) (k : string) : slot :=
  match v with
  | VObj pr ps =>
      match lookup ps k with
      | Some x => Data x
      | None =>
          match pr with
          | None => object_prototype_slot k
          | Some p => resolve p k
          end
      end
  | VNull | VUndefined => Missing
  | VArr _ | VStr _ | VNum _ | VBool _ | VBuiltin _ => object_prototype_slot k
  end.

Definition prototype_of (v : value) : value :=
  match v with
  | VObj (Some p) _ => p
  | VObj None _ => VBuiltin "Object.prototype"
  | VArr _ => VBuiltin "Array.prototype"
  | VStr _ => VBuiltin "String.prototype"
  | VNum _ => VBuiltin "Number.prototype"
  | VBool _ => VBuiltin "Boolean.prototype"
  | VBuiltin _ => VBuiltin "Function.prototype"
  | VNull | VUndefined => VUndefined
  end.

(** [v.k] and [v[k]].  (On [undefined] and [null] JavaScript throws; the
    program reads no property of them: [key.js] guards with [req.body &&],
    and the rows of the table hold the envelopes [upsert] wrote.) *)
Definition get (v : value) (k : string) : value :=
  match resolve v k with
  | Data x => x
  | ProtoAccessor => prototype_of v
  | Builtin n => VBuiltin n
  | Missing => VUndefined
  end.

(** [k in o]: own or inherited. *)
Definition has (o : object) (k : string) : bool :=
  match resolve (of_object o) k with
  | Missing => false
  | _ => true
  end.

(** [o[k] = v].  An own property is overwritten in place.  Otherwise, when
    the name resolves to the [__proto__] accessor, its setter runs: it
    replaces the prototype of [o] when [v] is an object or [null], does
    nothing for a primitive [v], and creates no own property.  In every
    other case [k] becomes a new own property of [o]. *)
Definition set (o : object) (k : string) (v : value) : object :=
  match lookup (props o) k with
  | Some _ => Obj (proto o) (replace (props o) k v)
  | None =>
      match resolve (VObj (proto o) []) k with
      | ProtoAccessor =>
          match v with
          | VObj _ _ | VArr _ | VBuiltin _ | VNull => Obj (Some v) (props o)
          | VUndefined | VBool _ | VNum _ | VStr _ => o
          end
      | Data _ | Builtin _ | Missing => Obj (proto o) (props o ++ [(k, v)])
      end
  end.

(** [delete o[k]]. *)
Definition delete (o : object) (k : string) : object :=
  Obj (proto o) (remove (props o) k).

(** The value a loop of assignments [o[name x] = val x], over [l] in order,
    assigns last under the name [k]. *)
Fixpoint last_assigned {X : Type} (name : X -> string) (val : X -> value)
  (k : string) (l : list X) : option value :=
  match l with
  | [] => None
  | x :: l' =>
      match last_assigned name val k l' with
      | Some y => Some y
      | None => if String.eqb (name x) k then Some (val x) else None
      end
  end.

(** A loop of assignments [o[name] = val] over a list of pairs. *)
Definition assign (o : object) (items : list (string * value)) : object :=
  fold_left (fun all kv => set all (fst kv) (snd kv)) items o.

(** Whether assigning [v] to [__proto__] replaces the prototype. *)
Definition replaces_prototype (v : value) : bool :=
  match v with
  | VObj _ _ | VArr _ | VBuiltin _ | VNull => true
  | VUndefined | VBool _ | VNum _ | VStr _ => false
  end.

(** Truthiness, as [if], [&&] and [!] see a value. *)
Definition truthy (v : value) : bool :=
  match v with
  | VUndefined | VNull => false
  | VBool b => b
  | VNum n => negb (Z.eqb n 0)
  | VStr s => negb (String.eqb s "")
  | VArr _ | VObj _ _ | VBuiltin _ => true
  end.

(** [s.slice(n)] for [0 <= n]. *)
Fixpoint slice (n : nat) (s : string) : string :=
  match n, s with
  | O, _ => s
  | S n', String _ s' => slice n' s'
  | S _, EmptyString => EmptyString
  end.

(** [''+v] converts [v] to a string, or throws a [TypeError].
    [stringifies v] is whether it converts.  An object is converted by its
    [toString] method, which has to be callable: the one inherited from
    [Object.prototype] is, a member of a JSON object named [toString] is
    not (and [valueOf] gives no primitive for an object either way).  An
    array is joined, which converts its elements, [undefined] and [null]
    becoming the empty string. *)
Fixpoint stringifies (v : value) : bool :=
  match v with
  | VArr l => forallb stringifies l
  | VObj _ _ =>
      match get v "toString" with
      | VBuiltin _ => true
      | _ => false
      end
  | VUndefined | VNull | VBool _ | VNum _ | VStr _ | VBuiltin _ => true
  end.

(** JSON documents: what [JSON.parse] can produce. *)
Fixpoint is_json (v : value) : bool :=
  match v with
  | VNull | VBool _ | VNum _ | VStr _ => true
  | VArr l => forallb is_json l
  | VObj None ps => forallb (fun p => let '(_, x) := p in is_json x) ps
  | VObj (Some _) _ | VUndefined | VBuiltin _ => false
  end.

(** Values of the store: JSON arrays and objects. *)
Definition is_value (v : value) : bool :=
  match v with
  | VArr _ | VObj None _ => is_json v
  | _ => false
  end.

End JS.

(** ** Promises *)

(** The error a promise is rejected with. *)
Inductive error : Type := Err (message : string).

(** A promise, by the way it settles. *)
Inductive promise (A : Type) : Type :=
| Resolved (a : A)
| Rejected (e : error).
Arguments Resolved {A} a.
Arguments Rejected {A} e.

(** How a call of a function that is to return a promise ends: it returns
    the promise, or it throws before it returns. *)
Inductive completion (A : Type) : Type :=
| Returned (p : promise A)
| Thrown (e : error).
Arguments Returned {A} p.
Arguments Thrown {A} e.

(** The error [''+v] throws when [v] does not convert. *)
Definition type_error : error :=
  Err "TypeError: Cannot convert object to primitive value".

(** [p.then(f)] with no [onRejected]: a rejection passes through. *)
Definition then_ {A B : Type} (p : promise A) (f : A -> B) : promise B :=
  match p with
  | Resolved a => Resolved (f a)
  | Rejected e => Rejected e
  end.

(** ** The memory store ([stores/memory.js]) *)

Module Memory.

(** [var store = {}]: the state of a store instance is that object. *)
Definition store : Type := JS.object.

Definition new_store : store := JS.empty.

Definition KEY_PREFIX : string := "key_".

Definition prepKey (key : string) : string := KEY_PREFIX ++ key.

Definition nuke (st : store) : promise unit * store :=
  (Resolved tt, JS.empty).

Definition getAll (st : store) : promise JS.object * store :=
  let all :=
    fold_left
      (fun all prop =>
         JS.set all (JS.slice (String.length KEY_PREFIX) prop)
                (JS.get (JS.of_object st) prop))
      (JS.keys st) JS.empty in
  (Resolved all, st).

(** [get] builds its log message with [''+store[key]] before it returns. *)
Definition get (key : string) (st : store) : completion JS.value * store :=
  let key := prepKey key in
  if JS.stringifies (JS.get (JS.of_object st) key) then
    (Returned (Resolved (JS.get (JS.of_object st) key)), st)
  else
    (Thrown type_error, st).

(** [upsert] stores the value, then builds its log message with [''+value]
    before it returns. *)
Definition upsert (key : string) (value : JS.value) (st : store)
  : completion Z * store :=
  let key := prepKey key in
  let st := JS.set st key value in
  if JS.stringifies value then
    (Returned (Resolved 1%Z), st)
  else
    (Thrown type_error, st).

Definition delete (key : string) (st : store) : promise Z * store :=
  let key := prepKey key in
  if JS.has st key then
    let st := JS.delete st key in
    (Resolved 1%Z, st)
  else
    (Resolved 0%Z, st).

(** Sequential use of one store instance. *)
Inductive op : Type :=
| Upsert (key : string) (value : JS.value)
| Delete (key : string)
| Nuke
| Get (key : string)
| GetAll.

Definition step (st : store) (o : op) : store :=
  match o with
  | Upsert k v => snd (upsert k v st)
  | Delete k => snd (delete k st)
  | Nuke => snd (nuke st)
  | Get k => snd (get k st)
  | GetAll => snd (getAll st)
  end.

Definition run (ops : list op) (st : store) : store := fold_left step ops st.

(** [writes k o]: [o] is an [upsert] or a [delete] of the key [k], or a
    [nuke]. *)
Definition writes (k : string) (o : op) : bool :=
  match o with
  | Upsert k' _ | Delete k' => String.eqb k' k
  | Nuke => true
  | Get _ | GetAll => false
  end.

(** [upserts k o]: [o] is an [upsert] of the key [k]. *)
Definition upserts (k : string) (o : op) : bool :=
  match o with
  | Upsert k' _ => String.eqb k' k
  | _ => false
  end.

(** The store object keeps the prototype it was created with. *)
Definition plain (st : store) : Prop := JS.proto st = None.

(** The own property of the store object that holds the key [k]. *)
Definition own (st : store) (k : string) : option JS.value :=
  JS.lookup (JS.props st) (prepKey k).

(** The names of the store object are munged keys, each once. *)
Definition well_keyed (st : store) : Prop :=
  plain st /\ NoDup (JS.keys st) /\
  Forall (fun p => exists k, p = prepKey k) (JS.keys st).

(** [contains st k]: the key [k] is bound in the store. *)
Definition contains (st : store) (k : string) : bool :=
  match own st k with Some _ => true | None => false end.

End Memory.


(** ** The Postgres store ([stores/postgres.js], [stores/pg_init.sql]) *)

Module Postgres.

(** A row of [KVS ( key VARCHAR(1024) PRIMARY KEY, value JSON )].  The JSON
    column gives back the document that was written to it. *)
Record row : Type := Row { row_key : string; row_value : JS.value }.

Definition KEY_MAX : nat := 1024.

(** The database a store instance talks to: the table, and the error, if
    any, with which [pg.connect] or [client.query] currently fail. *)
Record database : Type := DB { KVS : list row; outage : option error }.

(** The database after [pg_init.sql]. *)
Definition new_database (outage : option error) : database := DB [] outage.

Fixpoint all_spaces (s : string) : bool :=
  match s with
  | EmptyString => true
  | String c s' => Ascii.eqb c " "%char && all_spaces s'
  end.

(** Storing a string into a [VARCHAR(n)] column: a longer string is an
    error, unless the excess is all spaces, which are cut off. *)
Definition varchar (n : nat) (s : string) : option string :=
  if Nat.leb (String.length s) n then Some s
  else if all_spaces (JS.slice n s) then Some (String.substring 0 n s)
  else None.

Definition key_is (k : string) (r : row) : bool := String.eqb (row_key r) k.

(** [INSERT INTO KVS (key, value) VALUES ($1, $2)]; [None] when it raises
    (key too long for the column, or already there). *)
Definition insert (k : string) (v : JS.value) (tbl : list row)
  : option (list row) :=
  match varchar KEY_MAX k with
  | None => None
  | Some k' =>
      if existsb (key_is k') tbl then None else Some (tbl ++ [Row k' v])%list
  end.

(** [UPDATE KVS SET value = $2 WHERE key = $1].  An update writes a new
    version of the row, which a scan of the table returns after the rows
    that stay as they are.  (SQL fixes no order for a [SELECT] without
    [ORDER BY]; no statement about the store depends on the order of the
    rows.) *)
Definition update (k : string) (v : JS.value) (tbl : list row) : list row :=
  (filter (fun r => negb (key_is k r)) tbl
   ++ map (fun r => Row (row_key r) v) (filter (key_is k) tbl))%list.

(** The plpgsql function [upsert(varchar, json)]: the insert, and the update
    when the insert raises ([EXCEPTION WHEN OTHERS]). *)
Definition upsert_function (k : string) (v : JS.value) (tbl : list row)
  : list row :=
  match insert k v tbl with
  | Some tbl' => tbl'
  | None => update k v tbl
  end.

(** The statements the store sends, with their parameters. *)
Inductive sql : Type :=
| DELETE_FROM_KVS
| SELECT_ALL_FROM_KVS
| SELECT_VALUE_WHERE_KEY (key : string)
| SELECT_UPSERT (key : string) (value : JS.value)
| DELETE_WHERE_KEY (key : string).

(** A row of a result: the columns that were selected. *)
Record result_row : Type :=
  ResultRow { key : option string; value : JS.value }.

(** The [pg] result object. *)
Record result : Type := Result { rows : list result_row; rowCount : Z }.

Definition result_row_of (r : row) : result_row :=
  ResultRow (Some (row_key r)) (row_value r).

Definition execute (q : sql) (tbl : list row) : result * list row :=
  match q with
  | DELETE_FROM_KVS => (Result [] (Z.of_nat (List.length tbl)), [])
  | SELECT_ALL_FROM_KVS =>
      (Result (map result_row_of tbl) (Z.of_nat (List.length tbl)), tbl)
  | SELECT_VALUE_WHERE_KEY k =>
      let found := filter (key_is k) tbl in
      (Result (map (fun r => ResultRow None (row_value r)) found)
              (Z.of_nat (List.length found)), tbl)
  | SELECT_UPSERT k v =>
      (Result [ResultRow None JS.VNull] 1%Z, upsert_function k v tbl)
  | DELETE_WHERE_KEY k =>
      (Result [] (Z.of_nat (List.length (filter (key_is k) tbl))),
       filter (fun r => negb (key_is k r)) tbl)
  end.

(** [query(sql, params)]: the promise it returns, rejected with the error
    of [pg.connect] or of [client.query], resolved with the result
    otherwise.  (After [reject(err)] the callback of [pg.connect] does not
    return: it goes on to [client.query] on the client it did not get, which
    throws inside the callback, outside the promise.  The promise is all
    that is modelled here.) *)
Definition query (q : sql) (db : database) : promise result * database :=
  match outage db with
  | Some err => (Rejected err, db)
  | None =>
      let (res, tbl) := execute q (KVS db) in
      (Resolved res, DB tbl (outage db))
  end.

Definition nuke (db : database) : promise result * database :=
  query DELETE_FROM_KVS db.

(** [all[row.key]]: the property name of a missing column is
    ["undefined"]. *)
Definition property_name (k : option string) : string :=
  match k with Some s => s | None => "undefined" end.

Definition getAll (db : database) : promise JS.object * database :=
  let (p, db) := query SELECT_ALL_FROM_KVS db in
  (then_ p (fun result =>
     fold_left
       (fun all row =>
          JS.set all (property_name (key row)) (JS.get (value row) "value"))
       (rows result) JS.empty),
   db).

Definition get (k : string) (db : database) : promise JS.value * database :=
  let (p, db) := query (SELECT_VALUE_WHERE_KEY k) db in
  (then_ p (fun result =>
     match rows result with
     | [] => JS.VUndefined
     | row0 :: _ => JS.get (value row0) "value"
     end),
   db).

Definition upsert (k : string) (v : JS.value) (db : database)
  : promise result * database :=
  query (SELECT_UPSERT k (JS.VObj None [("value", v)])) db.

Definition delete (k : string) (db : database) : promise Z * database :=
  let (p, db) := query (DELETE_WHERE_KEY k) db in
  (then_ p (fun result => rowCount result), db).

(** Sequential use of one store instance. *)
Inductive op : Type :=
| Upsert (key : string) (value : JS.value)
| Delete (key : string)
| Nuke
| Get (key : string)
| GetAll.

Definition step (db : database) (o : op) : database :=
  match o with
  | Upsert k v => snd (upsert k v db)
  | Delete k => snd (delete k db)
  | Nuke => snd (nuke db)
  | Get k => snd (get k db)
  | GetAll => snd (getAll db)
  end.

Definition run (ops : list op) (db : database) : database :=
  fold_left step ops db.

(** The statement each operation sends. *)
Definition statement (o : op) : sql :=
  match o with
  | Upsert k v => SELECT_UPSERT k (JS.VObj None [("value", v)])
  | Delete k => DELETE_WHERE_KEY k
  | Nuke => DELETE_FROM_KVS
  | Get k => SELECT_VALUE_WHERE_KEY k
  | GetAll => SELECT_ALL_FROM_KVS
  end.

(** The primary key: no two rows of the table have the same key. *)
Definition primary_key (tbl : list row) : Prop := NoDup (map row_key tbl).

(** [contains db k]: the table has a row for the key [k]. *)
Definition contains (db : database) (k : string) : bool :=
  existsb (key_is k) (KVS db).

End Postgres.

(** ** The backing store interface *)

(** What [key.js] uses of a store: each operation is a call that returns a
    promise or throws.  The router ignores what [upsert] and [nuke] resolve
    to. *)
Class BackingStore (S : Type) : Type := {
  store_nuke : S -> completion unit * S;
  store_getAll : S -> completion JS.object * S;
  store_get : string -> S -> completion JS.value * S;
  store_upsert : string -> JS.value -> S -> completion unit * S;
  store_delete : string -> S -> completion Z * S
}.

Definition returned {A S : Type} (r : promise A * S) : completion A * S :=
  (Returned (fst r), snd r).

Definition forget {A S : Type} (r : completion A * S) : completion unit * S :=
  (match fst r with
   | Returned p => Returned (then_ p (fun _ => tt))
   | Thrown e => Thrown e
   end, snd r).

#[export] Instance memory_store : BackingStore Memory.store := {
  store_nuke st := returned (Memory.nuke st);
  store_getAll st := returned (Memory.getAll st);
  store_get := Memory.get;
  store_upsert k v st := forget (Memory.upsert k v st);
  store_delete k st := returned (Memory.delete k st)
}.

#[export] Instance postgres_store : BackingStore Postgres.database := {
  store_nuke db := forget (returned (Postgres.nuke db));
  store_getAll db := returned (Postgres.getAll db);
  store_get k db := returned (Postgres.get k db);
  store_upsert k v db := forget (returned (Postgres.upsert k v db));
  store_delete k db := returned (Postgres.delete k db)
}.

(** ** The router ([key.js]) *)

Module KeyJs.

(** The part of the configuration the routes read; [dataStore] and
    [dataStoreConfig] choose the [BackingStore] instance. *)
Record config : Type := Config { allowNuke : JS.value }.

(** A request as a route handler receives it: after routing has bound
    [req.params.id] and the JSON body parser has filled [req.body].
    [is_json] is whether [req.is('json')] is truthy. *)
Record request : Type :=
  Request { is_json : bool; params_id : string; body : JS.value }.

(** [req.body] of a request with an empty body: the body parser leaves an
    empty object (the comment in the PUT route). *)
Definition empty_body : JS.value := JS.VObj None [].

(** The confirmation object [{ nuke: true }] of the README. *)
Definition confirmation : JS.value := JS.VObj None [("nuke", JS.VBool true)].

Inductive payload : Type :=
| Text (s : string)
| Json (v : JS.value).

(** What becomes of a request in a handler: [res.status(s).send(p)]
    ([res.send(p)] is status 200); [next(err)], which hands the error to the
    error-handling middleware of Express (500), also what Express does with
    an exception a handler throws; or neither. *)
Inductive reply : Type :=
| Send (status : nat) (p : payload)
| Next (err : error)
| NoReply.

Definition status_of (r : reply) : option nat :=
  match r with
  | Send s _ => Some s
  | Next _ => Some 500
  | NoReply => None
  end.

(** The store operations a handler invoked. *)
Inductive call : Type :=
| CallNuke
| CallGetAll
| CallGet (key : string)
| CallUpsert (key : string) (value : JS.value)
| CallDelete (key : string).

Record outcome (S : Type) : Type :=
  Outcome { response : reply; store_after : S; calls : list call }.

Section Routes.

Context {S : Type} {store_impl : BackingStore S}.
Variable config : config.

(** [GET /v1/all] *)
Definition get_all (req : request) (store : S) : outcome S :=
  let (c, store) := store_getAll store in
  match c with
  | Returned (Resolved all) =>
      Outcome (Send 200 (Json (JS.of_object all))) store [CallGetAll]
  | Returned (Rejected _) => Outcome NoReply store [CallGetAll]
  | Thrown err => Outcome (Next err) store [CallGetAll]
  end.

(** [req.body && req.body.nuke], under [config.allowNuke &&]. *)
Definition nuke_allowed (req : request) : bool :=
  JS.truthy (allowNuke config) && JS.truthy (body req)
  && JS.truthy (JS.get (body req) "nuke").

(** [POST /v1/nuke] *)
Definition post_nuke (req : request) (store : S) : outcome S :=
  if nuke_allowed req then
    let (c, store) := store_nuke store in
    match c with
    | Returned (Resolved _) =>
        Outcome (Send 200 (Text "Deleted all keys.")) store [CallNuke]
    | Returned (Rejected err) | Thrown err => Outcome (Next err) store [CallNuke]
    end
  else
    Outcome
      (Send 400 (Text "Nuking this store is not allowed or you didn't say the magic word (see README)."))
      store [].

(** [GET /v1/key/:id] *)
Definition get_key (req : request) (store : S) : outcome S :=
  let key := params_id req in
  let (c, store) := store_get key store in
  match c with
  | Returned (Resolved result) =>
      match result with
      | JS.VUndefined =>
          Outcome (Send 404 (Text ("No value for key " ++ key))) store [CallGet key]
      | _ => Outcome (Send 200 (Json result)) store [CallGet key]
      end
  | Returned (Rejected err) | Thrown err => Outcome (Next err) store [CallGet key]
  end.

(** [PUT /v1/key/:id] *)
Definition put_key (req : request) (store : S) : outcome S :=
  if negb (is_json req) then
    Outcome (Send 400 (Text "Request type must be `application/json`.")) store []
  else
    let key := params_id req in
    let body := body req in
    let (c, store) := store_upsert (params_id req) body store in
    match c with
    | Returned (Resolved _) =>
        Outcome (Send 201 (Text ("Stored `" ++ key ++ "`."))) store
                [CallUpsert key body]
    | Returned (Rejected err) | Thrown err =>
        Outcome (Next err) store [CallUpsert key body]
    end.

(** [DELETE /v1/key/:id] *)
Definition delete_key (req : request) (store : S) : outcome S :=
  let key := params_id req in
  let (c, store) := store_delete key store in
  match c with
  | Returned (Resolved count) =>
      if JS.truthy (JS.VNum count) then
        Outcome (Send 200 (Text ("Deleted " ++ key))) store [CallDelete key]
      else
        Outcome (Send 404 (Text ("Key `" ++ key ++ "` was not in the store!")))
                store [CallDelete key]
  | Returned (Rejected err) | Thrown err =>
      Outcome (Next err) store [CallDelete key]
  end.

End Routes.

(** The five routes. *)
Inductive route : Type := GET_all | POST_nuke | GET_key | PUT_key | DELETE_key.

Definition VERSION_PREFIX : string := "/v1".

Definition path (r : route) : string :=
  match r with
  | GET_all => VERSION_PREFIX ++ "/all"
  | POST_nuke => VERSION_PREFIX ++ "/nuke"
  | GET_key | PUT_key | DELETE_key => VERSION_PREFIX ++ "/key/:id"
  end.

Definition handle {S : Type} {store_impl : BackingStore S}
  (config : config) (r : route) (req : request) (store : S) : outcome S :=
  match r with
  | GET_all => get_all req store
  | POST_nuke => post_nuke config req store
  | GET_key => get_key req store
  | PUT_key => put_key req store
  | DELETE_key => delete_key req store
  end.

(** The store operation a route is for. *)
Definition operation (r : route) (req : request) : call :=
  match r with
  | GET_all => CallGetAll
  | POST_nuke => CallNuke
  | GET_key => CallGet (params_id req)
  | PUT_key => CallUpsert (params_id req) (body req)
  | DELETE_key => CallDelete (params_id req)
  end.

(** [rejects e r req store]: the store operation of the route [r], invoked
    on [store] for [req], returns a promise that rejects with [e]. *)
Definition rejects {S : Type} {store_impl : BackingStore S}
  (e : error) (r : route) (req : request) (store : S) : Prop :=
  match r with
  | GET_all => fst (store_getAll store) = Returned (Rejected e)
  | POST_nuke => fst (store_nuke store) = Returned (Rejected e)
  | GET_key => fst (store_get (params_id req) store) = Returned (Rejected e)
  | PUT_key =>
      fst (store_upsert (params_id req) (body req) store) = Returned (Rejected e)
  | DELETE_key =>
      fst (store_delete (params_id req) store) = Returned (Rejected e)
  end.

(** [guarded config r req]: the request passes the test its route makes
    before it invokes the store. *)
Definition guarded (config : config) (r : route) (req : request) : bool :=
  match r with
  | POST_nuke => nuke_allowed config req
  | PUT_key => is_json req
  | GET_all | GET_key | DELETE_key => true
  end.

(** The error a call ends with, when it does not end with a resolved
    promise. *)
Definition error_of {A : Type} (c : completion A) : option error :=
  match c with
  | Returned (Resolved _) => None
  | Returned (Rejected e) | Thrown e => Some e
  end.

(** The error with which the store operation of the route [r] fails. *)
Definition store_error {S : Type} {store_impl : BackingStore S}
  (r : route) (req : request) (store : S) : option error :=
  match r with
  | GET_all => error_of (fst (store_getAll store))
  | POST_nuke => error_of (fst (store_nuke store))
  | GET_key => error_of (fst (store_get (params_id req) store))
  | PUT_key => error_of (fst (store_upsert (params_id req) (body req) store))
  | DELETE_key => error_of (fst (store_delete (params_id req) store))
  end.

End KeyJs.

(** ** Using a store through its interface *)

Module Store.

(** The operations of the interface, for any implementation. *)
Inductive op : Type :=
| Upsert (key : string) (value : JS.value)
| Delete (key : string)
| Nuke
| Get (key : string)
| GetAll.

(** What the caller of an operation gets back. *)
Inductive observation : Type :=
| Unit (c : completion unit)
| Value (c : completion JS.value)
| All (c : completion JS.object)
| Count (c : completion Z).

Section AnyStore.

Context {S : Type} {store_impl : BackingStore S}.

Definition perform (o : op) (s : S) : observation * S :=
  match o with
  | Upsert k v => let (c, s) := store_upsert k v s in (Unit c, s)
  | Delete k => let (c, s) := store_delete k s in (Count c, s)
  | Nuke => let (c, s) := store_nuke s in (Unit c, s)
  | Get k => let (c, s) := store_get k s in (Value c, s)
  | GetAll => let (c, s) := store_getAll s in (All c, s)
  end.


End AnyStore.

(** Two objects with the same prototype and the same members, in some
    order. *)
Definition same_members (a b : JS.object) : Prop :=
  JS.proto a = JS.proto b /\ Permutation (JS.props a) (JS.props b).

(** Two observations that are the same, up to the order of the members of
    the object [getAll] resolves to. *)
Definition alike (x y : observation) : Prop :=
  match x, y with
  | All (Returned (Resolved a)), All (Returned (Resolved b)) => same_members a b
  | _, _ => x = y
  end.

(** [fits o]: a key that [o] upserts fits the key column of the table, and
    the value it upserts converts to a string. *)
Definition fits (o : op) : bool :=
  match o with
  | Upsert k v =>
      Nat.leb (String.length k) Postgres.KEY_MAX && JS.stringifies v
  | _ => true
  end.

End Store.

(** ** Sequences of operations on the Postgres store *)

Module PostgresOps.
Import Postgres.

(** [writes k o]: [o] is an [upsert] or a [delete] of the key [k], or a
    [nuke]. *)
Definition writes (k : string) (o : op) : bool :=
  match o with
  | Upsert k' _ | Delete k' => String.eqb k' k
  | Nuke => true
  | Get _ | GetAll => false
  end.

(** [upserts k o]: [o] is an [upsert] of the key [k]. *)
Definition upserts (k : string) (o : op) : bool :=
  match o with
  | Upsert k' _ => String.eqb k' k
  | _ => false
  end.

(** [key_fits o]: a key that [o] upserts fits the key column. *)
Definition key_fits (o : op) : bool :=
  match o with
  | Upsert k _ => Nat.leb (String.length k) KEY_MAX
  | _ => true
  end.

(** The envelope [upsert] wraps a value in. *)
Definition envelope (v : JS.value) : JS.value := JS.VObj None [("value", v)].

(** The rows of the table under a key. *)
Definition rows_of (k : string) (db : database) : list row :=
  filter (key_is k) (KVS db).

(** What every row of a table written by the store is: a key that fits the
    column, with an envelope as its document. *)
Definition row_ok (r : row) : Prop :=
  String.length (row_key r) <= KEY_MAX /\
  exists v, row_value r = envelope v.

(** A string of [n] times the character [c]. *)
Fixpoint repeat_char (n : nat) (c : ascii) : string :=
  match n with
  | O => EmptyString
  | S n' => String c (repeat_char n' c)
  end.

End PostgresOps.

(** ** The scenario of the test suite ([test/test.js], [testSuite]) *)

Module TestSuite.
Import KeyJs.

(** The configurations under test have [allowNuke: true]. *)
Definition config : KeyJs.config := Config (JS.VBool true).

(** A request that sends [body] as JSON, and one with no body (the body
    parser leaves [{}]). *)
Definition sending (key : string) (body : JS.value) : request :=
  Request true key body.

Definition bare (key : string) : request :=
  Request false key (JS.VObj None []).

Definition unknown (key : string) : string :=
  key ++ "this_suffix_makes_the_key_invalid".

(** The requests of [testSuite(config, key, val, val2)], in order. *)
Definition requests (key : string) (val val2 : JS.value)
  : list (route * request) :=
  [ (POST_nuke, sending "" confirmation);
    (GET_all, bare "");
    (PUT_key, sending key val);
    (GET_key, bare key);
    (GET_key, bare (unknown key));
    (PUT_key, sending key val2);
    (GET_key, bare key);
    (DELETE_key, bare key);
    (GET_key, bare key) ].

(** What [expect(status, done)] and [expect(status, body, done)] check. *)
Inductive expectation : Type :=
| Status (s : nat)
| StatusBody (s : nat) (body : JS.value).

Definition expectations (val val2 : JS.value) : list expectation :=
  [ Status 200;
    StatusBody 200 (JS.VObj None []);
    Status 201;
    StatusBody 200 val;
    Status 404;
    Status 201;
    StatusBody 200 val2;
    Status 200;
    Status 404 ].

Definition meets (r : reply) (e : expectation) : Prop :=
  match e, r with
  | Status s, Send s' _ => s' = s
  | StatusBody s b, Send s' (Json b') => s' = s /\ b' = b
  | _, _ => False
  end.

(** The replies to a sequence of requests served one after the other. *)
Fixpoint replies {S : Type} {store_impl : BackingStore S}
  (rs : list (route * request)) (store : S) : list reply :=
  match rs with
  | [] => []
  | (r, req) :: rs =>
      let out := handle config r req store in
      response out :: replies rs (store_after out)
  end.

End TestSuite.

(** ** The two stores side by side *)

Module Mirror.

(** What the memory store keeps for a row of the table: the munged key and
    the value out of its envelope. *)
Definition unwrap (r : Postgres.row) : JS.value :=
  JS.get (Postgres.row_value r) "value".

Definition image (r : Postgres.row) : string * JS.value :=
  (Memory.prepKey (Postgres.row_key r), unwrap r).

(** A munged name with its value, back to the key with its value. *)
Definition unmunge (p : string * JS.value) : string * JS.value :=
  (JS.slice (String.length Memory.KEY_PREFIX) (fst p), snd p).

(** [mirrors st db]: the store object holds what the table holds, in some
    order; the database is reachable; and every value converts to a
    string. *)
Definition mirrors (st : Memory.store) (db : Postgres.database) : Prop :=
  Postgres.outage db = None /\
  JS.proto st = None /\
  Permutation (JS.props st) (map image (Postgres.KVS db)) /\
  Postgres.primary_key (Postgres.KVS db) /\
  Forall (fun r => JS.stringifies (unwrap r) = true) (Postgres.KVS db).

End Mirror.

Module MemoryOps.

(** The upsert of a key/value pair. *)
Definition upsert_of (kv : string * JS.value) : Memory.op :=
  Memory.Upsert (fst kv) (snd kv).

End MemoryOps.

(** ** Serving requests one after the other *)

Module Session.
Import KeyJs.

(** The replies of a router to a sequence of requests. *)
Fixpoint answers {S : Type} {store_impl : BackingStore S}
  (config : config) (rs : list (route * request)) (store : S) : list reply :=
  match rs with
  | [] => []
  | (r, req) :: rs =>
      let out := handle config r req store in
      response out :: answers config rs (store_after out)
  end.

(** Two replies that are the same, up to the order of the members of the
    object [GET /v1/all] sends. *)
Definition reply_alike (r : route) (x y : reply) : Prop :=
  match r, x, y with
  | GET_all, Send s1 (Json (JS.VObj p1 ps1)), Send s2 (Json (JS.VObj p2 ps2)) =>
      s1 = s2 /\ p1 = p2 /\ Permutation ps1 ps2
  | _, _, _ => x = y
  end.

Fixpoint alike (rs : list (route * request)) (xs ys : list reply) : Prop :=
  match rs, xs, ys with
  | [], [], [] => True
  | (r, _) :: rs, x :: xs, y :: ys => reply_alike r x y /\ alike rs xs ys
  | _, _, _ => False
  end.

(** [request_fits rq]: when [rq] is a PUT, its key fits the key column of
    the table and its body converts to a string. *)
Definition request_fits (rq : route * request) : bool :=
  match fst rq with
  | PUT_key =>
      Nat.leb (String.length (params_id (snd rq))) Postgres.KEY_MAX
      && JS.stringifies (body (snd rq))
  | _ => true
  end.

End Session.
(** ** Properties of objects used as maps *)

Module JSFacts.
Import JS.

Ltac eqb_cases a b :=
  let E := fresh "E" in
  destruct (String.eqb a b) eqn:E;
  [apply String.eqb_eq in E | apply String.eqb_neq in E].

Lemma lookup_replace_same ps k v x :
  lookup ps k = Some x -> lookup (replace ps k v) k = Some v.
Proof.
  induction ps as [|[k' v'] rest IH]; simpl; [discriminate|].
  eqb_cases k' k; simpl.
  - subst. now rewrite String.eqb_refl.
  - intros H. apply String.eqb_neq in E. rewrite E. auto.
Qed.

Lemma lookup_replace_other ps k v k2 :
  k <> k2 -> lookup (replace ps k v) k2 = lookup ps k2.
Proof.
  intros Hne. induction ps as [|[k' v'] rest IH]; simpl; [reflexivity|].
  eqb_cases k' k; simpl.
  - subst. apply String.eqb_neq in Hne. now rewrite Hne.
  - rewrite IH. reflexivity.
Qed.

Lemma lookup_app ps qs k :
  lookup (ps ++ qs) k =
  match lookup ps k with Some x => Some x | None => lookup qs k end.
Proof.
  induction ps as [|[k' v'] rest IH]; simpl; [reflexivity|].
  destruct (String.eqb k' k); auto.
Qed.

Lemma lookup_remove_same ps k : lookup (remove ps k) k = None.
Proof.
  induction ps as [|[k' v'] rest IH]; simpl; [reflexivity|].
  eqb_cases k' k; simpl; [assumption|].
  apply String.eqb_neq in E. now rewrite E.
Qed.

Lemma lookup_remove_other ps k k2 :
  k <> k2 -> lookup (remove ps k) k2 = lookup ps k2.
Proof.
  intros Hne. induction ps as [|[k' v'] rest IH]; simpl; [reflexivity|].
  eqb_cases k' k; simpl.
  - subst. apply String.eqb_neq in Hne. now rewrite Hne.
  - now rewrite IH.
Qed.

Lemma lookup_None_not_In ps k : lookup ps k = None <-> ~ In k (map fst ps).
Proof.
  induction ps as [|[k' v'] rest IH]; simpl; [tauto|].
  eqb_cases k' k.
  - split; [discriminate | intros H; exfalso; auto].
  - rewrite IH. tauto.
Qed.

Lemma lookup_Some_In ps k x : lookup ps k = Some x -> In (k, x) ps.
Proof.
  induction ps as [|[k' v'] rest IH]; simpl; [discriminate|].
  eqb_cases k' k.
  - intros [= ->]. subst. now left.
  - auto.
Qed.

Lemma lookup_In_NoDup ps k x :
  NoDup (map fst ps) -> In (k, x) ps -> lookup ps k = Some x.
Proof.
  induction ps as [|[k' v'] rest IH]; simpl; [tauto|].
  intros Hnd [Heq | Hin]; inversion Hnd; subst.
  - inversion Heq; subst. now rewrite String.eqb_refl.
  - eqb_cases k' k; [|auto].
    subst. exfalso. apply H1. apply (in_map fst) in Hin. exact Hin.
Qed.

(** A name that [Object.prototype] does not know is written as an own
    property of a plain object, whatever the value. *)
Lemma set_plain_fresh o k v :
  proto o = None -> object_prototype_slot k = Missing ->
  proto (set o k v) = None /\ lookup (props (set o k v)) k = Some v.
Proof.
  intros Hp Hk. unfold set.
  destruct (lookup (props o) k) eqn:L; simpl.
  - split; [assumption|]. eapply lookup_replace_same; eauto.
  - rewrite Hp. simpl. rewrite Hk. simpl. split; [reflexivity|].
    rewrite lookup_app, L. simpl. now rewrite String.eqb_refl.
Qed.

(** Writing under one name leaves the own properties of other names alone. *)
Lemma set_lookup_other o k v k2 :
  k <> k2 -> lookup (props (set o k v)) k2 = lookup (props o) k2.
Proof.
  intros Hne. unfold set.
  assert (Happ : lookup (props o ++ [(k, v)]) k2 = lookup (props o) k2).
  { rewrite lookup_app. simpl. apply String.eqb_neq in Hne. rewrite Hne.
    now destruct (lookup (props o) k2). }
  destruct (lookup (props o) k) eqn:L.
  - simpl. now apply lookup_replace_other.
  - destruct (resolve (VObj (proto o) []) k); try exact Happ.
    destruct v; reflexivity.
Qed.

Lemma get_plain o k :
  proto o = None -> object_prototype_slot k = Missing ->
  get (of_object o) k =
  match lookup (props o) k with Some x => x | None => VUndefined end.
Proof.
  intros Hp Hk. unfold get, of_object. simpl. rewrite Hp.
  destruct (lookup (props o) k); [reflexivity|]. now rewrite Hk.
Qed.

Lemma has_plain o k :
  proto o = None -> object_prototype_slot k = Missing ->
  has o k = match lookup (props o) k with Some _ => true | None => false end.
Proof.
  intros Hp Hk. unfold has, of_object. simpl. rewrite Hp.
  destruct (lookup (props o) k); [reflexivity|]. now rewrite Hk.
Qed.

(** Only the name [__proto__] reaches the accessor. *)
Lemma object_prototype_slot_accessor k :
  object_prototype_slot k = ProtoAccessor -> k = PROTO.
Proof.
  unfold object_prototype_slot. eqb_cases k PROTO; [auto|].
  destruct (in_dec string_dec k object_prototype_names); discriminate.
Qed.

Fixpoint resolve_accessor (v : value) (k : string) {struct v} :
  resolve v k = ProtoAccessor -> k = PROTO.
Proof.
  destruct v as [| | | | | |pr ps|]; simpl;
    try discriminate; try apply object_prototype_slot_accessor.
  destruct (lookup ps k); [discriminate|].
  destruct pr as [p|]; [apply resolve_accessor |
                        apply object_prototype_slot_accessor].
Qed.

(** Under another name than [__proto__] an assignment makes an own
    property, whatever the object and its prototype. *)
Lemma set_lookup_same o k v :
  k <> PROTO -> lookup (props (set o k v)) k = Some v.
Proof.
  intros Hk. unfold set.
  destruct (lookup (props o) k) eqn:L.
  - simpl. eapply lookup_replace_same; eauto.
  - assert (Happ : lookup (props o ++ [(k, v)]) k = Some v).
    { rewrite lookup_app, L. simpl. now rewrite String.eqb_refl. }
    destruct (resolve (VObj (proto o) []) k) eqn:R; try exact Happ.
    apply resolve_accessor in R. contradiction.
Qed.

Lemma last_assigned_app {X} (name : X -> string) val k l1 l2 :
  last_assigned name val k (l1 ++ l2) =
  match last_assigned name val k l2 with
  | Some y => Some y
  | None => last_assigned name val k l1
  end.
Proof.
  induction l1 as [|x l1 IH]; simpl.
  - now destruct (last_assigned name val k l2).
  - rewrite IH. now destruct (last_assigned name val k l2).
Qed.

(** What a loop of assignments leaves under a name other than
    [__proto__]. *)
Lemma fold_set_lookup {X} (name : X -> string) val k l o :
  k <> PROTO ->
  lookup (props (fold_left (fun all x => set all (name x) (val x)) l o)) k =
  match last_assigned name val k l with
  | Some y => Some y
  | None => lookup (props o) k
  end.
Proof.
  intros Hk. revert o. induction l as [|x l IH]; intros o; simpl;
    [reflexivity|].
  rewrite IH. destruct (last_assigned name val k l); [reflexivity|].
  eqb_cases (name x) k.
  - rewrite E. now apply set_lookup_same.
  - now apply set_lookup_other.
Qed.

Lemma slice_append p s : slice (String.length p) (p ++ s) = s.
Proof. induction p; simpl; auto. Qed.

Lemma append_inj_r p s t : p ++ s = p ++ t -> s = t.
Proof. induction p; simpl; [auto|]. intros [= H]. auto. Qed.

End JSFacts.

(** ** The memory store: facts about its key munging and its state *)

Module MemoryFacts.
Import JS JSFacts Memory.

(** No munged key is a name of [Object.prototype]. *)
Lemma prepKey_slot k : object_prototype_slot (prepKey k) = Missing.
Proof.
  unfold object_prototype_slot.
  change (String.eqb (prepKey k) PROTO) with false.
  destruct (in_dec string_dec (prepKey k) object_prototype_names) as [H|H];
    [exfalso | reflexivity].
  simpl in H.
  repeat (destruct H as [H|H]; [discriminate H|]). exact H.
Qed.

Lemma prepKey_inj k1 k2 : prepKey k1 = prepKey k2 -> k1 = k2.
Proof. apply append_inj_r. Qed.

Lemma prepKey_neq k1 k2 : k1 <> k2 -> prepKey k1 <> prepKey k2.
Proof. intros H E. apply H, prepKey_inj, E. Qed.

Lemma slice_prepKey k : slice (String.length KEY_PREFIX) (prepKey k) = k.
Proof. apply slice_append. Qed.

(** Whether they return or throw, [upsert] has stored the value and [get]
    has changed nothing. *)
Lemma upsert_state st k v : snd (upsert k v st) = JS.set st (prepKey k) v.
Proof. unfold upsert. now destruct (stringifies v). Qed.

Lemma get_state st k : snd (get k st) = st.
Proof.
  unfold get.
  now destruct (stringifies (JS.get (of_object st) (prepKey k))).
Qed.

(** [upsert] returns, with a resolved promise, exactly for the values that
    convert to a string. *)
Lemma upsert_returns st k v :
  fst (upsert k v st) =
  if stringifies v then Returned (Resolved 1%Z) else Thrown type_error.
Proof. unfold upsert. now destruct (stringifies v). Qed.

(** A JSON object with a member [toString] does not convert: [upsert]
    stores it and throws, and [get] throws from then on. *)
Example upsert_toString_throws :
  let v := VObj None [("toString", VNum 1)] in
  upsert "k" v new_store = (Thrown type_error, Obj None [(prepKey "k", v)]) /\
  fst (get "k" (snd (upsert "k" v new_store))) = Thrown type_error.
Proof. split; reflexivity. Qed.

Lemma plain_step st o : plain st -> plain (step st o).
Proof.
  unfold plain. intros Hp. destruct o; cbn [step]; auto.
  - rewrite upsert_state.
    apply set_plain_fresh; [assumption | apply prepKey_slot].
  - unfold delete. destruct (has st (prepKey key)); simpl; auto.
  - now rewrite get_state.
Qed.

Lemma plain_run ops st : plain st -> plain (run ops st).
Proof.
  revert st. induction ops as [|o ops IH]; simpl; intros st Hp; [assumption|].
  apply IH, plain_step, Hp.
Qed.

Lemma plain_reachable ops : plain (run ops new_store).
Proof. apply plain_run. reflexivity. Qed.

Lemma get_own st k :
  plain st ->
  get k st =
  let x := match own st k with Some x => x | None => VUndefined end in
  (if stringifies x then Returned (Resolved x) else Thrown type_error, st).
Proof.
  intros Hp. unfold get, own.
  rewrite get_plain by (assumption || apply prepKey_slot).
  cbv zeta.
  now destruct (stringifies
                  match lookup (props st) (prepKey k) with
                  | Some x => x
                  | None => VUndefined
                  end).
Qed.

Lemma upsert_own st k v :
  plain st -> own (snd (upsert k v st)) k = Some v.
Proof.
  intros Hp. unfold own. rewrite upsert_state.
  apply set_plain_fresh; [assumption | apply prepKey_slot].
Qed.

Lemma upsert_own_other st k v k2 :
  k <> k2 -> own (snd (upsert k v st)) k2 = own st k2.
Proof.
  intros Hne. unfold own. rewrite upsert_state.
  apply set_lookup_other, prepKey_neq, Hne.
Qed.

Lemma delete_own st k : plain st -> own (snd (delete k st)) k = None.
Proof.
  intros Hp. unfold own, delete.
  rewrite has_plain by (assumption || apply prepKey_slot).
  destruct (lookup (props st) (prepKey k)) eqn:L; simpl.
  - apply lookup_remove_same.
  - exact L.
Qed.

Lemma delete_own_other st k k2 :
  k <> k2 -> own (snd (delete k st)) k2 = own st k2.
Proof.
  intros Hne. unfold own, delete.
  destruct (has st (prepKey k)); simpl; [|reflexivity].
  apply lookup_remove_other, prepKey_neq, Hne.
Qed.

(** An operation that does not write [k] keeps what [k] is bound to. *)
Lemma step_own_kept st o k :
  writes k o = false -> own (step st o) k = own st k.
Proof.
  destruct o; cbn [step writes]; try discriminate; try reflexivity; intros H;
    try (now rewrite get_state); apply String.eqb_neq in H.
  - now apply upsert_own_other.
  - now apply delete_own_other.
Qed.

(** An operation that does not upsert [k] keeps [k] absent. *)
Lemma step_own_absent st o k :
  plain st -> upserts k o = false -> own st k = None -> own (step st o) k = None.
Proof.
  intros Hp. destruct o; cbn [step upserts]; try reflexivity; intros H Hn;
    try assumption; try (now rewrite get_state).
  - apply String.eqb_neq in H. now rewrite upsert_own_other.
  - destruct (String.eqb key k) eqn:E.
    + apply String.eqb_eq in E. subst. now apply delete_own.
    + apply String.eqb_neq in E. now rewrite delete_own_other.
Qed.

Lemma run_own_kept ops st k :
  forallb (fun o => negb (writes k o)) ops = true ->
  own (run ops st) k = own st k.
Proof.
  revert st. induction ops as [|o ops IH]; simpl; intros st H; [reflexivity|].
  apply andb_true_iff in H as [Ho Hops]. apply negb_true_iff in Ho.
  rewrite IH by assumption. now apply step_own_kept.
Qed.

Lemma run_own_absent ops st k :
  plain st ->
  forallb (fun o => negb (upserts k o)) ops = true ->
  own st k = None -> own (run ops st) k = None.
Proof.
  revert st. induction ops as [|o ops IH]; simpl; intros st Hp H Hn; [assumption|].
  apply andb_true_iff in H as [Ho Hops]. apply negb_true_iff in Ho.
  apply IH; [now apply plain_step | assumption | now apply step_own_absent].
Qed.

End MemoryFacts.

(** ** The Postgres store: the table and its primary key *)

Module PostgresFacts.
Import JS JSFacts Postgres.

Lemma query_up q db :
  outage db = None ->
  query q db =
  (Resolved (fst (execute q (KVS db))), DB (snd (execute q (KVS db))) None).
Proof.
  intros H. unfold query. rewrite H. now destruct (execute q (KVS db)).
Qed.

Lemma query_down q db e : outage db = Some e -> query q db = (Rejected e, db).
Proof. intros H. unfold query. now rewrite H. Qed.

Lemma query_outage q db : outage (snd (query q db)) = outage db.
Proof.
  unfold query. destruct (outage db) eqn:E; simpl; [assumption|].
  now destruct (execute q (KVS db)).
Qed.

Lemma query_table q db :
  KVS (snd (query q db)) =
  match outage db with
  | Some _ => KVS db
  | None => snd (execute q (KVS db))
  end.
Proof.
  unfold query. destruct (outage db); [reflexivity|].
  now destruct (execute q (KVS db)).
Qed.

Lemma step_query db o : step db o = snd (query (statement o) db).
Proof.
  destruct o; simpl; unfold upsert, delete, nuke, get, getAll; simpl;
    try reflexivity;
    match goal with |- context [query ?q db] => now destruct (query q db) end.
Qed.

Lemma step_outage db o : outage (step db o) = outage db.
Proof. rewrite step_query. apply query_outage. Qed.

Lemma run_outage ops db : outage (run ops db) = outage db.
Proof.
  revert db. induction ops as [|o ops IH]; simpl; intros db; [reflexivity|].
  unfold run in IH. rewrite IH. apply step_outage.
Qed.

Lemma existsb_key_is_In k tbl :
  existsb (key_is k) tbl = true <-> In k (map row_key tbl).
Proof.
  rewrite existsb_exists, in_map_iff. unfold key_is.
  split; intros (r & H1 & H2).
  - exists r. apply String.eqb_eq in H2. auto.
  - exists r. split; [assumption|]. now apply String.eqb_eq.
Qed.

Lemma existsb_key_is_not_In k tbl :
  existsb (key_is k) tbl = false <-> ~ In k (map row_key tbl).
Proof.
  rewrite <- existsb_key_is_In. destruct (existsb (key_is k) tbl); split;
    congruence.
Qed.

Lemma partition_keys k tbl :
  Permutation (map row_key tbl)
              (map row_key (filter (fun r => negb (key_is k r)) tbl)
               ++ map row_key (filter (key_is k) tbl)).
Proof.
  induction tbl as [|r tbl IH]; simpl; [constructor|].
  destruct (key_is k r); simpl.
  - now apply Permutation_cons_app.
  - now constructor.
Qed.

Lemma update_keys k v tbl :
  Permutation (map row_key tbl) (map row_key (update k v tbl)).
Proof.
  unfold update. rewrite map_app, map_map. simpl. apply partition_keys.
Qed.

Lemma update_primary_key k v tbl :
  primary_key tbl -> primary_key (update k v tbl).
Proof.
  unfold primary_key. intros H.
  eapply Permutation_NoDup; [apply update_keys | exact H].
Qed.

Lemma NoDup_map_filter (f : row -> bool) tbl :
  NoDup (map row_key tbl) -> NoDup (map row_key (filter f tbl)).
Proof.
  induction tbl as [|r tbl IH]; simpl; intros H; [constructor|].
  inversion H as [|? ? Hn Hd]; subst.
  destruct (f r); simpl; [|auto].
  constructor; [|auto].
  intros Hin. apply Hn. rewrite in_map_iff in *.
  destruct Hin as (r' & Hk & Hf). apply filter_In in Hf. exists r'. tauto.
Qed.

Lemma execute_primary_key q tbl :
  primary_key tbl -> primary_key (snd (execute q tbl)).
Proof.
  unfold primary_key. intros H. destruct q; simpl; try assumption.
  - constructor.
  - unfold upsert_function, insert.
    destruct (varchar KEY_MAX key0) as [k'|];
      [|now apply update_primary_key].
    destruct (existsb (key_is k') tbl) eqn:E;
      [now apply update_primary_key|].
    rewrite map_app. simpl.
    apply existsb_key_is_not_In in E.
    apply NoDup_app; [assumption | constructor; [tauto | constructor] |].
    intros a Ha [<-|[]]. contradiction.
  - now apply NoDup_map_filter.
Qed.

Lemma step_primary_key db o :
  primary_key (KVS db) -> primary_key (KVS (step db o)).
Proof.
  intros H. rewrite step_query, query_table.
  destruct (outage db); [assumption|]. now apply execute_primary_key.
Qed.

Lemma run_primary_key ops db :
  primary_key (KVS db) -> primary_key (KVS (run ops db)).
Proof.
  revert db. induction ops as [|o ops IH]; simpl; intros db H; [assumption|].
  apply IH, step_primary_key, H.
Qed.

Lemma reachable_primary_key ops out :
  primary_key (KVS (run ops (new_database out))).
Proof. apply run_primary_key. constructor. Qed.

Lemma filter_key_is_absent k tbl :
  existsb (key_is k) tbl = false ->
  filter (key_is k) tbl = [] /\ filter (fun r => negb (key_is k r)) tbl = tbl.
Proof.
  induction tbl as [|r tbl IH]; simpl; [auto|].
  destruct (key_is k r); simpl; [discriminate|].
  intros H. destruct (IH H) as [-> ->]. auto.
Qed.

(** Under the primary key, at most one row has the key [k]. *)
Lemma count_key_is k tbl :
  primary_key tbl ->
  Z.of_nat (List.length (filter (key_is k) tbl)) =
  if existsb (key_is k) tbl then 1%Z else 0%Z.
Proof.
  unfold primary_key.
  induction tbl as [|r tbl IH]; simpl; intros H; [reflexivity|].
  inversion H as [|? ? Hn Hd]; subst.
  destruct (key_is k r) eqn:E; simpl.
  - unfold key_is in E. apply String.eqb_eq in E. subst k.
    apply existsb_key_is_not_In in Hn.
    destruct (filter_key_is_absent _ _ Hn) as [-> _]. reflexivity.
  - auto.
Qed.

Lemma existsb_filter_out k tbl :
  existsb (key_is k) (filter (fun r => negb (key_is k r)) tbl) = false.
Proof.
  induction tbl as [|r tbl IH]; simpl; [reflexivity|].
  destruct (key_is k r) eqn:E; simpl; [assumption|]. now rewrite E.
Qed.

End PostgresFacts.

(** ** The memory store: the store contract *)

Module MemoryContract.
Import JS JSFacts Memory MemoryFacts.

Lemma get_after_upsert later st k v :
  plain st ->
  stringifies v = true ->
  forallb (fun o => negb (writes k o)) later = true ->
  fst (get k (run later (snd (upsert k v st)))) = Returned (Resolved v).
Proof.
  intros Hp Hv Hl.
  assert (Hp' : plain (snd (upsert k v st))).
  { apply (@plain_step st (Upsert k v) Hp). }
  rewrite get_own by (apply plain_run, Hp').
  cbv zeta. cbn [fst]. rewrite run_own_kept by assumption.
  rewrite upsert_own by assumption. now rewrite Hv.
Qed.

Lemma get_after_delete later st k :
  plain st ->
  forallb (fun o => negb (upserts k o)) later = true ->
  fst (get k (run later (snd (delete k st)))) = Returned (Resolved VUndefined).
Proof.
  intros Hp Hl.
  assert (Hp' : plain (snd (delete k st))).
  { apply (@plain_step st (Delete k) Hp). }
  rewrite get_own by (apply plain_run, Hp').
  cbv zeta. cbn [fst]. rewrite run_own_absent; auto using delete_own.
Qed.

Lemma upsert_succeeded st k v n :
  fst (upsert k v st) = Returned (Resolved n) -> stringifies v = true.
Proof.
  rewrite upsert_returns. destruct (stringifies v); [reflexivity | discriminate].
Qed.

(** C1. In the memory store, on any store reached by a sequence of
    operations, for every key [k] and value [v].  After a successful
    [upsert(k,v)], one that returned a resolved promise, [get(k)] resolves
    to [v] after any further operations none of which is an upsert or
    delete of [k] or a nuke; in particular, [get(k)] resolves to [v] after
    [upsert(k,v1)] and a successful [upsert(k,v)].  After [delete(k)],
    [get(k)] resolves to [undefined] after any further operations none of
    which is an upsert of [k].  ([upsert(k,v)] is successful for every [v]
    that converts to a string.) *)
Theorem C1_get_returns_last_upsert :
  forall (history later1 later2 : list op) (k : string) (v : value) (n : Z),
    forallb (fun o => negb (writes k o)) later1 = true ->
    forallb (fun o => negb (upserts k o)) later2 = true ->
    let st := run history new_store in
    fst (upsert k v st) = Returned (Resolved n) ->
    fst (get k (run later1 (snd (upsert k v st)))) = Returned (Resolved v) /\
    (forall v1,
        fst (get k (snd (upsert k v (snd (upsert k v1 st))))) =
        Returned (Resolved v)) /\
    fst (get k (run later2 (snd (delete k (snd (upsert k v st)))))) =
      Returned (Resolved VUndefined) /\
    fst (get k (run later2 (snd (delete k st)))) = Returned (Resolved VUndefined).
Proof.
  intros history later1 later2 k v n H1 H2 st Hok.
  assert (Hp : plain st) by apply plain_reachable.
  assert (Hv : stringifies v = true) by (eapply upsert_succeeded; eauto).
  split; [now apply get_after_upsert|].
  split.
  - intros v1.
    apply (@get_after_upsert [] (snd (upsert k v1 st)) k v);
      [apply (@plain_step st (Upsert k v1) Hp) | assumption | reflexivity].
  - split; apply get_after_delete; try assumption.
    apply (@plain_step st (Upsert k v) Hp).
Qed.

Lemma C1_get_returns_last_upsert_witness :
  let k := "TEST_KEY" in
  let v := VArr [VStr "omg"; VNum 1; VBool true] in
  let st := run [Upsert "other" (VObj None [])] new_store in
  fst (get k (run [Get k; Upsert "other" (VArr []); Delete "gone"; GetAll]
                  (snd (upsert k v st)))) = Returned (Resolved v) /\
  fst (get k (run [Get k; Delete k; Nuke; Upsert "other" (VArr [])]
                  (snd (delete k st)))) = Returned (Resolved VUndefined).
Proof.
  intros k v st.
  destruct (@C1_get_returns_last_upsert
              [Upsert "other" (VObj None [])]
              [Get k; Upsert "other" (VArr []); Delete "gone"; GetAll]
              [Get k; Delete k; Nuke; Upsert "other" (VArr [])]
              k v 1%Z) as (Hup & _ & _ & Hdel);
    [reflexivity | reflexivity | reflexivity |].
  split; [exact Hup | exact Hdel].
Defined.

(** C6. Whatever sequence of operations came before, [nuke()] resolves
    and [getAll()] then resolves to the empty object: in the memory store,
    and in the Postgres store with the database reachable. *)
Theorem C6_getAll_after_nuke_is_empty :
  forall (history : list op) (phistory : list Postgres.op),
    let st := run history new_store in
    let db := Postgres.run phistory (Postgres.new_database None) in
    (fst (nuke st) = Resolved tt /\
     fst (getAll (snd (nuke st))) = Resolved JS.empty) /\
    ((exists r, fst (Postgres.nuke db) = Resolved r) /\
     fst (Postgres.getAll (snd (Postgres.nuke db))) = Resolved JS.empty) /\
    keys JS.empty = [].
Proof.
  intros history phistory st db. split; [split; reflexivity|].
  split; [|reflexivity].
  assert (Hup : Postgres.outage db = None).
  { unfold db. now rewrite PostgresFacts.run_outage. }
  unfold Postgres.nuke, Postgres.getAll.
  rewrite (@PostgresFacts.query_up _ db Hup). cbn [fst snd Postgres.execute].
  split; [eauto|]. reflexivity.
Qed.

(** C10. In the memory store, [upsert(k,v)] and [delete(k)] leave every
    other key [k'] as it was: [get(k')] resolves to the same result, and
    [k'] is bound after the operation exactly when it was before. *)
Theorem C10_other_keys_unchanged :
  forall (history : list op) (k k' : string) (v : value),
    k' <> k ->
    let st := run history new_store in
    fst (get k' (snd (upsert k v st))) = fst (get k' st) /\
    contains (snd (upsert k v st)) k' = contains st k' /\
    fst (get k' (snd (delete k st))) = fst (get k' st) /\
    contains (snd (delete k st)) k' = contains st k'.
Proof.
  intros history k k' v Hne st.
  assert (Hp : plain st) by apply plain_reachable.
  assert (Hu : plain (snd (upsert k v st))) by apply (@plain_step st (Upsert k v) Hp).
  assert (Hd : plain (snd (delete k st))) by apply (@plain_step st (Delete k) Hp).
  assert (Hne' : k <> k') by congruence.
  unfold contains.
  rewrite !get_own by assumption. cbv zeta. cbn [fst].
  rewrite (@upsert_own_other st k v k' Hne'), (@delete_own_other st k k' Hne').
  repeat split.
Qed.

Lemma C10_other_keys_unchanged_witness :
  let st := run [Upsert "a" (VArr [VNum 1]); Upsert "b" (VObj None [])] new_store in
  fst (get "a" (snd (upsert "b" (VArr []) st))) =
    Returned (Resolved (VArr [VNum 1])) /\
  fst (get "a" (snd (delete "b" st))) = Returned (Resolved (VArr [VNum 1])).
Proof.
  intros st.
  assert (Hne : "a" <> "b") by discriminate.
  destruct (@C10_other_keys_unchanged
              [Upsert "a" (VArr [VNum 1]); Upsert "b" (VObj None [])]
              "b" "a" (VArr []) Hne) as (Hu & _ & Hd & _).
  split; [exact Hu | exact Hd].
Defined.

End MemoryContract.

(** ** Delete *)

Module DeleteContract.
Import JS JSFacts.

Lemma memory_delete st k :
  Memory.plain st ->
  fst (Memory.delete k st) = Resolved (if Memory.contains st k then 1%Z else 0%Z) /\
  Memory.contains (snd (Memory.delete k st)) k = false /\
  (Memory.contains st k = false -> snd (Memory.delete k st) = st).
Proof.
  intros Hp. unfold Memory.contains.
  rewrite (MemoryFacts.delete_own k Hp).
  unfold Memory.delete, Memory.own.
  rewrite has_plain by (assumption || apply MemoryFacts.prepKey_slot).
  destruct (lookup (props st) (Memory.prepKey k)); simpl; auto.
  repeat split. discriminate.
Qed.

Lemma postgres_delete db k :
  Postgres.outage db = None ->
  Postgres.primary_key (Postgres.KVS db) ->
  fst (Postgres.delete k db) =
    Resolved (if Postgres.contains db k then 1%Z else 0%Z) /\
  Postgres.contains (snd (Postgres.delete k db)) k = false /\
  (Postgres.contains db k = false -> snd (Postgres.delete k db) = db).
Proof.
  intros Hup Hpk. unfold Postgres.delete, Postgres.contains.
  rewrite PostgresFacts.query_up by assumption. simpl.
  rewrite PostgresFacts.count_key_is by assumption.
  split; [reflexivity|].
  split; [apply PostgresFacts.existsb_filter_out|].
  intros H. destruct (PostgresFacts.filter_key_is_absent _ _ H) as [_ ->].
  destruct db; simpl in *. now subst.
Qed.

(** C5. In both stores, on any store reached by a sequence of operations
    (for Postgres: with the database reachable), [delete(k)] resolves, to 1
    when [k] was bound and to 0 when it was not; afterwards [k] is not
    bound; and when [k] was not bound the store is unchanged. *)
Theorem C5_delete_resolves_to_count :
  forall (mhistory : list Memory.op) (phistory : list Postgres.op) (k : string),
    let st := Memory.run mhistory Memory.new_store in
    let db := Postgres.run phistory (Postgres.new_database None) in
    (fst (Memory.delete k st) =
       Resolved (if Memory.contains st k then 1%Z else 0%Z) /\
     Memory.contains (snd (Memory.delete k st)) k = false /\
     (Memory.contains st k = false -> snd (Memory.delete k st) = st)) /\
    (fst (Postgres.delete k db) =
       Resolved (if Postgres.contains db k then 1%Z else 0%Z) /\
     Postgres.contains (snd (Postgres.delete k db)) k = false /\
     (Postgres.contains db k = false -> snd (Postgres.delete k db) = db)).
Proof.
  intros mhistory phistory k st db. split.
  - apply memory_delete, MemoryFacts.plain_reachable.
  - apply postgres_delete.
    + unfold db. now rewrite PostgresFacts.run_outage.
    + apply PostgresFacts.reachable_primary_key.
Qed.

Lemma C5_delete_resolves_to_count_witness :
  let v := VArr [VNum 1] in
  let st := Memory.run [Memory.Upsert "a" v] Memory.new_store in
  let db := Postgres.run [Postgres.Upsert "a" v] (Postgres.new_database None) in
  (fst (Memory.delete "a" st) = Resolved 1%Z /\
   snd (Memory.delete "b" st) = st) /\
  (fst (Postgres.delete "a" db) = Resolved 1%Z /\
   snd (Postgres.delete "b" db) = db).
Proof.
  intros v st db.
  destruct (C5_delete_resolves_to_count
              [Memory.Upsert "a" v] [Postgres.Upsert "a" v] "a")
    as ((M1 & _ & _) & (P1 & _ & _)).
  destruct (C5_delete_resolves_to_count
              [Memory.Upsert "a" v] [Postgres.Upsert "a" v] "b")
    as ((_ & _ & M0) & (_ & _ & P0)).
  split; split;
    [exact M1 | apply M0; reflexivity | exact P1 | apply P0; reflexivity].
Defined.

End DeleteContract.

(** ** The router *)

Module RouterContract.
Import JS KeyJs.

Section AnyStore.

Context {S : Type} {store_impl : BackingStore S}.

(** C7. [GET /v1/key/:id] answers 200 with the value when the store's [get]
    resolves to a value (a JSON array or object), and 404 when it resolves
    to [undefined]; [DELETE /v1/key/:id] answers 200 when the store's
    [delete] resolves to 1 and 404 when it resolves to 0. *)
Theorem C7_status_of_store_results :
  forall (req : request) (store : S) (v : value),
    is_value v = true ->
    (fst (store_get (params_id req) store) = Returned (Resolved v) ->
     response (get_key req store) = Send 200 (Json v)) /\
    (fst (store_get (params_id req) store) = Returned (Resolved VUndefined) ->
     status_of (response (get_key req store)) = Some 404) /\
    (fst (store_delete (params_id req) store) = Returned (Resolved 1%Z) ->
     status_of (response (delete_key req store)) = Some 200) /\
    (fst (store_delete (params_id req) store) = Returned (Resolved 0%Z) ->
     status_of (response (delete_key req store)) = Some 404).
Proof.
  intros req store v Hv. unfold get_key, delete_key.
  destruct (store_get (params_id req) store) as [pg sg].
  destruct (store_delete (params_id req) store) as [pd sd].
  simpl. repeat split; intros ->; try reflexivity.
  destruct v; try discriminate Hv; reflexivity.
Qed.


(** The four routes that pass [next] as [onRejected] hand a rejection of
    their store operation to the error handler. *)
Lemma rejection_reaches_next (config : config) (r : route) (req : request)
      (store : S) (e : error) :
  r <> GET_all ->
  (r = POST_nuke -> nuke_allowed config req = true) ->
  (r = PUT_key -> is_json req = true) ->
  rejects e r req store ->
  response (handle config r req store) = Next e /\
  calls (handle config r req store) = [operation r req].
Proof.
  intros Hr Hn Hj Hrej. destruct r; simpl in *; try congruence.
  - unfold post_nuke. rewrite Hn by reflexivity.
    destruct (store_nuke store) as [p s]. simpl in Hrej. subst. auto.
  - unfold get_key.
    destruct (store_get (params_id req) store) as [p s]. simpl in Hrej.
    subst. auto.
  - unfold put_key. rewrite Hj by reflexivity. simpl.
    destruct (store_upsert (params_id req) (body req) store) as [p s].
    simpl in Hrej. subst. auto.
  - unfold delete_key.
    destruct (store_delete (params_id req) store) as [p s]. simpl in Hrej.
    subst. auto.
Qed.

End AnyStore.

(** C7 on the memory store: a stored key, then a key that is not there. *)
Lemma C7_status_of_store_results_witness :
  let v := VArr [VNum 1; VNum 2; VNum 3] in
  let req := Request false "TEST_KEY" VUndefined in
  let st := snd (Memory.upsert "TEST_KEY" v Memory.new_store) in
  (response (get_key req st) = Send 200 (Json v) /\
   status_of (response (delete_key req st)) = Some 200) /\
  (status_of (response (get_key req Memory.new_store)) = Some 404 /\
   status_of (response (delete_key req Memory.new_store)) = Some 404).
Proof.
  intros v req st.
  destruct (@C7_status_of_store_results _ memory_store req st v eq_refl)
    as (H1 & _ & H3 & _).
  destruct (@C7_status_of_store_results _ memory_store req Memory.new_store v eq_refl)
    as (_ & H2 & _ & H4).
  split; split;
    [apply H1 | apply H3 | apply H2 | apply H4]; reflexivity.
Defined.

(** C2 fails on the empty body.  A PUT of type JSON with an empty body
    reaches the handler with [req.body = {}], what the JSON body parser
    leaves for it; the handler tests the content type only, so it invokes
    [store.upsert] and answers 201, and the key is bound to [{}] afterwards,
    where the README asks for a 400 ("the request body must not be
    empty"). *)
Lemma C2_empty_body_is_stored :
  let req := Request true "TEST_KEY" empty_body in
  let out := put_key req Memory.new_store in
  status_of (response out) = Some 201 /\
  calls out = [CallUpsert "TEST_KEY" (VObj None [])] /\
  fst (Memory.get "TEST_KEY" (store_after out)) =
    Returned (Resolved (VObj None [])).
Proof. repeat split. Qed.



(** C4 fails on [GET /v1/all]: with the Postgres store and the database
    out of reach, [store.getAll()] returns a promise that rejects; the route
    has no [onRejected]: it sends no response and does not call [next], so
    the error reaches no error handler. *)
Theorem C4_get_all_drops_rejection :
  let e := Err "connect ECONNREFUSED" in
  let db := Postgres.new_database (Some e) in
  let req := Request false "" (VObj None []) in
  let out := handle (Config (VBool true)) GET_all req db in
  rejects e GET_all req db /\
  calls out = [CallGetAll] /\
  response out = NoReply /\
  status_of (response out) = None.
Proof. repeat split. Qed.

End RouterContract.

(** ** [getAll] *)

Module GetAllContract.
Import JS JSFacts.

(** *** The memory store *)

Section MemoryGetAll.
Import Memory MemoryFacts.

Lemma keys_replace ps k v : map fst (replace ps k v) = map fst ps.
Proof.
  induction ps as [|[k' v'] rest IH]; simpl; [reflexivity|].
  destruct (String.eqb k' k); simpl; [reflexivity | now rewrite IH].
Qed.

Lemma keys_remove ps k :
  map fst (remove ps k) = filter (fun p => negb (String.eqb p k)) (map fst ps).
Proof.
  induction ps as [|[k' v'] rest IH]; simpl; [reflexivity|].
  destruct (String.eqb k' k); simpl; [assumption | now rewrite IH].
Qed.

Lemma well_keyed_step st o : well_keyed st -> well_keyed (step st o).
Proof.
  intros (Hp & Hnd & Hpre).
  split; [now apply plain_step|].
  destruct o; cbn [step]; try rewrite get_state; try (split; assumption).
  - rewrite upsert_state. unfold keys, set in *.
    destruct (lookup (props st) (prepKey key)) eqn:L; cbn [props].
    + rewrite keys_replace. now split.
    + unfold plain in Hp. rewrite Hp. cbn [resolve lookup].
      rewrite prepKey_slot. cbn [props]. rewrite map_app. simpl. split.
      * apply NoDup_app; [assumption | constructor; [tauto | constructor] |].
        intros a Ha [<-|[]]. apply lookup_None_not_In in L. contradiction.
      * apply Forall_app. split; [assumption|]. constructor; eauto.
  - unfold delete, keys in *.
    destruct (has st (prepKey key)); cbn [snd]; [|now split].
    unfold JS.delete. cbn [props]. rewrite keys_remove. split.
    + now apply NoDup_filter.
    + apply Forall_forall. intros p Hin. apply filter_In in Hin.
      rewrite Forall_forall in Hpre. apply Hpre. tauto.
  - unfold nuke, keys. simpl. split; constructor.
Qed.

Lemma well_keyed_reachable ops : well_keyed (run ops new_store).
Proof.
  assert (H0 : well_keyed new_store).
  { repeat split; constructor. }
  revert H0. generalize new_store.
  induction ops as [|o ops IH]; simpl; intros st H; [assumption|].
  apply IH, well_keyed_step, H.
Qed.

(** Reading the names of the store back, stripped of the prefix. *)
Lemma last_assigned_keys (val : string -> value) ps k :
  NoDup (map fst ps) ->
  Forall (fun p => exists k0, p = prepKey k0) (map fst ps) ->
  (forall p x, In (p, x) ps -> val p = x) ->
  last_assigned (slice (String.length KEY_PREFIX)) val k (map fst ps) =
  lookup ps (prepKey k).
Proof.
  induction ps as [|[p x] ps IH]; cbn [map fst last_assigned lookup];
    intros Hnd Hpre Hval; [reflexivity|].
  inversion Hnd as [|? ? Hn Hd]; subst.
  inversion Hpre as [|? ? [k0 Hk0] Hpre']; subst.
  rewrite IH; [|assumption|assumption|intros; apply Hval; now right].
  rewrite slice_prepKey.
  eqb_cases (prepKey k0) (prepKey k).
  - rewrite <- E in *. apply lookup_None_not_In in Hn. rewrite Hn.
    apply prepKey_inj in E. subst k. rewrite String.eqb_refl.
    f_equal. apply Hval. now left.
  - destruct (lookup ps (prepKey k)); [reflexivity|].
    eqb_cases k0 k; [subst; contradiction | reflexivity].
Qed.

(** On a reachable store, under every key other than [__proto__] the
    object [getAll] resolves to has the value the key is bound to, and
    nothing when the key is not bound. *)
Lemma memory_getAll_lookup (history : list op) (k : string) :
  k <> PROTO ->
  let st := run history new_store in
  exists all, fst (getAll st) = Resolved all /\
              lookup (props all) k = own st k.
Proof.
  intros Hk st. destruct (well_keyed_reachable history) as (Hp & Hnd & Hpre).
  fold st in Hp, Hnd, Hpre.
  eexists. split; [reflexivity|].
  rewrite fold_set_lookup by assumption. unfold keys in *.
  rewrite last_assigned_keys; try assumption.
  - unfold own. now destruct (lookup (props st) (prepKey k)).
  - intros p x Hin. rewrite Forall_forall in Hpre.
    destruct (Hpre p) as [k0 ->].
    { apply (in_map fst) in Hin. exact Hin. }
    rewrite get_plain by (assumption || apply prepKey_slot).
    now rewrite (lookup_In_NoDup _ _ _ Hnd Hin).
Qed.

(** C9 fails on the key [__proto__]: the key is upserted and [get] finds
    it, but the object [getAll] resolves to has no own property at all: the
    assignment [all[prop.slice(...)] = store[prop]] replaced the prototype of
    [all] instead.  The munged name in the store object is fine
    ([prepKey] is injective and [slice] undoes it). *)
Theorem C9_getAll_loses_proto_key :
  let v := VObj None [("a", VNum 1)] in
  let st := run [Upsert "__proto__" v] new_store in
  fst (get "__proto__" st) = Returned (Resolved v) /\
  keys st = [prepKey "__proto__"] /\
  slice (String.length KEY_PREFIX) (prepKey "__proto__") = "__proto__" /\
  fst (getAll st) = Resolved (Obj (Some v) []) /\
  keys (Obj (Some v) []) = [] /\
  lookup (props (Obj (Some v) [])) "__proto__" = None.
Proof. repeat split. Qed.

End MemoryGetAll.

End GetAllContract.

(** ** The Postgres store: the envelope *)

Module EnvelopeContract.
Import JS JSFacts Postgres PostgresFacts.

(** Reading the member [value] of the envelope gives the value back. *)
Lemma unwrap_wrap v : JS.get (VObj None [("value", v)]) "value" = v.
Proof. reflexivity. Qed.

Lemma varchar_fits k : String.length k <= KEY_MAX -> varchar KEY_MAX k = Some k.
Proof.
  intros H. unfold varchar. apply Nat.leb_le in H. now rewrite H.
Qed.

Lemma filter_rewritten k e tbl :
  filter (key_is k) (map (fun r => Row (row_key r) e) (filter (key_is k) tbl)) =
  map (fun r => Row (row_key r) e) (filter (key_is k) tbl).
Proof.
  induction tbl as [|r tbl IH]; simpl; [reflexivity|].
  destruct (key_is k r) eqn:E; simpl; [|exact IH].
  unfold key_is in *. simpl. rewrite E. now rewrite IH.
Qed.

Lemma filter_update k e tbl :
  filter (key_is k) (update k e tbl) =
  map (fun r => Row (row_key r) e) (filter (key_is k) tbl).
Proof.
  unfold update. rewrite filter_app, filter_rewritten.
  pose proof (existsb_filter_out k tbl) as H.
  now destruct (filter_key_is_absent _ _ H) as [-> _].
Qed.

Lemma filter_nonempty k tbl :
  existsb (key_is k) tbl = true -> filter (key_is k) tbl <> [].
Proof.
  induction tbl as [|r tbl IH]; simpl; [discriminate|].
  destruct (key_is k r); simpl; [discriminate | exact IH].
Qed.

(** After the [upsert] function, every row found under the key holds the
    document that was passed, and there is one. *)
Lemma select_after_upsert k e tbl :
  String.length k <= KEY_MAX ->
  exists r rest,
    filter (key_is k) (upsert_function k e tbl) = r :: rest /\
    row_value r = e.
Proof.
  intros Hlen. unfold upsert_function, insert. rewrite varchar_fits by assumption.
  destruct (existsb (key_is k) tbl) eqn:E.
  - rewrite filter_update. apply filter_nonempty in E.
    destruct (filter (key_is k) tbl) as [|r rest]; [contradiction|].
    simpl. eauto.
  - rewrite filter_app. destruct (filter_key_is_absent _ _ E) as [-> _].
    simpl. unfold key_is at 1. simpl. rewrite String.eqb_refl. eauto.
Qed.

(** [get] after [upsert] gives the value itself, not the envelope: for
    every key that fits the column, on any table, with the database
    reachable. *)
Lemma postgres_get_after_upsert db k v :
  outage db = None ->
  String.length k <= KEY_MAX ->
  fst (get k (snd (upsert k v db))) = Resolved v.
Proof.
  intros Hup Hlen. unfold upsert, get.
  rewrite (@query_up _ db Hup). cbn [snd execute].
  rewrite query_up by reflexivity. cbn [fst snd execute KVS then_ rows].
  destruct (select_after_upsert k (VObj None [("value", v)]) (KVS db) Hlen)
    as (r & rest & -> & Hr).
  simpl. now rewrite Hr.
Qed.

(** Under the primary key, the last row of the table with the key [k] is
    the first one. *)
Lemma last_assigned_rows k tbl :
  primary_key tbl ->
  last_assigned (fun row => property_name (key row))
                (fun row => JS.get (value row) "value") k
                (map result_row_of tbl) =
  match filter (key_is k) tbl with
  | [] => None
  | r :: _ => Some (JS.get (row_value r) "value")
  end.
Proof.
  unfold primary_key.
  induction tbl as [|r tbl IH]; cbn [map last_assigned filter]; intros H;
    [reflexivity|].
  inversion H as [|? ? Hn Hd]; subst. rewrite IH by assumption.
  cbn [result_row_of key value property_name]. unfold key_is at 2.
  eqb_cases (row_key r) k.
  - subst k. apply existsb_key_is_not_In in Hn.
    destruct (filter_key_is_absent _ _ Hn) as [-> _]. reflexivity.
  - now destruct (filter (key_is k) tbl).
Qed.

(** With the database reachable, under every key other than [__proto__]
    the object [getAll] resolves to has what [get] resolves to when the key
    has a row, and nothing when it has none. *)
Lemma postgres_getAll_lookup (history : list op) (k : string) :
  k <> PROTO ->
  let db := run history (new_database None) in
  exists all,
    fst (getAll db) = Resolved all /\
    (contains db k = false -> lookup (props all) k = None) /\
    (contains db k = true ->
     exists x, lookup (props all) k = Some x /\ fst (get k db) = Resolved x).
Proof.
  intros Hk db.
  assert (Hup : outage db = None).
  { unfold db. now rewrite run_outage. }
  assert (Hpk : primary_key (KVS db)) by apply reachable_primary_key.
  unfold getAll, get, contains. rewrite !(fun q => @query_up q db Hup).
  cbn [fst snd execute then_ rows].
  eexists. split; [reflexivity|].
  rewrite fold_set_lookup by assumption.
  rewrite last_assigned_rows by assumption.
  split; intros E.
  - now destruct (filter_key_is_absent _ _ E) as [-> _].
  - apply filter_nonempty in E.
    destruct (filter (key_is k) (KVS db)) as [|r rest]; [contradiction|].
    simpl. eauto.
Qed.

(** C8 fails on the key [__proto__]: the bare array is wrapped on upsert
    and [get] unwraps it, but the object [getAll] resolves to has no own
    property at all: the assignment [all[row.key] = row.value.value]
    replaced the prototype of [all] instead. *)
Theorem C8_getAll_loses_proto_key :
  let v := VArr [VNum 1] in
  let db := run [Upsert "__proto__" v] (new_database None) in
  KVS db = [Row "__proto__" (VObj None [("value", v)])] /\
  fst (get "__proto__" db) = Resolved v /\
  fst (getAll db) = Resolved (Obj (Some v) []) /\
  keys (Obj (Some v) []) = [] /\
  lookup (props (Obj (Some v) [])) "__proto__" = None.
Proof. repeat split. Qed.

End EnvelopeContract.

(** ** More on the memory store *)

Module MemoryMore.
Import JS JSFacts Memory MemoryFacts.

(** X1. The key munger: [prepKey] maps distinct keys to distinct names,
    [slice(KEY_PREFIX.length)] gives the key back, and a munged key is never
    [__proto__] nor another name of [Object.prototype]. *)
Theorem X1_prepKey_is_safe :
  forall k1 k2 : string,
    (prepKey k1 = prepKey k2 <-> k1 = k2) /\
    slice (String.length KEY_PREFIX) (prepKey k1) = k1 /\
    prepKey k1 <> PROTO /\
    ~ In (prepKey k1) object_prototype_names.
Proof.
  intros k1 k2. split; [|split; [|split]].
  - split; [apply prepKey_inj | now intros ->].
  - apply slice_prepKey.
  - discriminate.
  - intros H. simpl in H.
    repeat (destruct H as [H|H]; [discriminate H|]). exact H.
Qed.

(** X2. What the store object looks like after any sequence of operations:
    its prototype is the one it was created with, each of its own names is a
    munged key and occurs once, and [key in store] is true exactly for the
    keys that are bound (no inherited name is taken for a key). *)
Theorem X2_store_object_invariant :
  forall (history : list op) (k : string),
    let st := run history new_store in
    proto st = None /\
    NoDup (keys st) /\
    Forall (fun p => exists k', p = prepKey k') (keys st) /\
    has st (prepKey k) = contains st k.
Proof.
  intros history k st.
  destruct (GetAllContract.well_keyed_reachable history) as (Hp & Hnd & Hpre).
  repeat split; try assumption.
  unfold contains, own.
  apply has_plain; [exact Hp | apply prepKey_slot].
Qed.

Lemma lookup_is_json ps k x :
  forallb (fun p => let '(_, y) := p in is_json y) ps = true ->
  lookup ps k = Some x -> is_json x = true.
Proof.
  induction ps as [|[k' y] ps IH]; simpl; [discriminate|].
  intros H. apply andb_true_iff in H as [Hy Hps].
  destruct (String.eqb k' k); [intros [= <-]; exact Hy | auto].
Qed.

(** A JSON object converts to a string exactly when it has no member
    named [toString]. *)
Lemma stringifies_json_object ps :
  is_json (VObj None ps) = true ->
  (stringifies (VObj None ps) = true <-> lookup ps "toString" = None).
Proof.
  intros Hj. simpl in Hj. unfold stringifies, JS.get. cbn [resolve].
  destruct (lookup ps "toString") as [x|] eqn:L.
  - apply (lookup_is_json _ _ Hj) in L.
    split; [intros H | discriminate]. destruct x; simpl in *; congruence.
  - split; reflexivity.
Qed.

(** X3. [upsert] of a JSON object returns a resolved promise exactly when
    the object has no member named [toString]; with such a member the call
    throws a [TypeError] (from the log message [''+value]), on any store. *)
Theorem X3_upsert_throws_on_toString_member :
  forall (st : store) (k : string) (ps : list (string * value)),
    is_json (VObj None ps) = true ->
    (fst (upsert k (VObj None ps) st) = Returned (Resolved 1%Z) <->
     lookup ps "toString" = None) /\
    (fst (upsert k (VObj None ps) st) = Thrown type_error <->
     lookup ps "toString" <> None).
Proof.
  intros st k ps Hj. rewrite upsert_returns.
  destruct (stringifies_json_object ps Hj) as [H1 H2].
  destruct (stringifies (VObj None ps)).
  - rewrite (H1 eq_refl). split; split; congruence.
  - destruct (lookup ps "toString").
    + split; split; congruence.
    + discriminate (H2 eq_refl).
Qed.

Lemma X3_upsert_throws_on_toString_member_witness :
  fst (upsert "k" (VObj None [("a", VNum 1)]) new_store) =
    Returned (Resolved 1%Z) /\
  fst (upsert "k" (VObj None [("toString", VStr "x")]) new_store) =
    Thrown type_error.
Proof.
  split.
  - apply (@X3_upsert_throws_on_toString_member
             new_store "k" [("a", VNum 1)] eq_refl).
    reflexivity.
  - apply (@X3_upsert_throws_on_toString_member
             new_store "k" [("toString", VStr "x")] eq_refl).
    discriminate.
Defined.

(** X4. An [upsert] that throws has stored its value all the same: on any
    store reached by a sequence of operations, when [v] does not convert to
    a string, [upsert(k,v)] throws, [k] is bound to [v] afterwards, [get(k)]
    throws too, and [delete(k)] resolves to 1, after which [get(k)] resolves
    to [undefined] again. *)
Theorem X4_throwing_upsert_has_stored :
  forall (history : list op) (k : string) (v : value),
    stringifies v = false ->
    let st := run history new_store in
    let st' := snd (upsert k v st) in
    fst (upsert k v st) = Thrown type_error /\
    own st' k = Some v /\
    fst (get k st') = Thrown type_error /\
    fst (delete k st') = Resolved 1%Z /\
    fst (get k (snd (delete k st'))) = Returned (Resolved VUndefined).
Proof.
  intros history k v Hv st st'.
  assert (Hp : plain st) by apply plain_reachable.
  assert (Hp' : plain st') by apply (@plain_step st (Upsert k v) Hp).
  assert (Ho : own st' k = Some v) by now apply upsert_own.
  split; [rewrite upsert_returns; now rewrite Hv|].
  split; [exact Ho|].
  split; [rewrite get_own by assumption; cbv zeta; rewrite Ho; now rewrite Hv|].
  destruct (DeleteContract.memory_delete k Hp') as (Hd & _ & _).
  unfold contains in Hd. rewrite Ho in Hd.
  split; [exact Hd|].
  apply (@MemoryContract.get_after_delete [] st' k Hp'). reflexivity.
Qed.

Lemma X4_throwing_upsert_has_stored_witness :
  let v := VArr [VObj None [("toString", VNull)]] in
  let st' := snd (upsert "k" v new_store) in
  fst (upsert "k" v new_store) = Thrown type_error /\
  own st' "k" = Some v /\
  fst (get "k" st') = Thrown type_error.
Proof.
  intros v st'.
  destruct (@X4_throwing_upsert_has_stored [] "k" v eq_refl)
    as (H1 & H2 & H3 & _).
  split; [exact H1 | split; [exact H2 | exact H3]].
Defined.

End MemoryMore.

(** ** Sequences of operations *)

Module Sequences.
Import JS JSFacts MemoryOps.

Lemma memory_run_app ops1 ops2 st :
  Memory.run (ops1 ++ ops2) st = Memory.run ops2 (Memory.run ops1 st).
Proof. apply fold_left_app. Qed.

Lemma postgres_run_app ops1 ops2 db :
  Postgres.run (ops1 ++ ops2) db = Postgres.run ops2 (Postgres.run ops1 db).
Proof. apply fold_left_app. Qed.

(** What a batch of upserts leaves under a key. *)
Lemma own_after_upserts kvs st k :
  Memory.plain st ->
  Memory.own (Memory.run (map upsert_of kvs) st) k =
  match last_assigned fst snd k kvs with
  | Some v => Some v
  | None => Memory.own st k
  end.
Proof.
  revert st. induction kvs as [|[k0 v0] kvs IH]; intros st Hp;
    cbn [map Memory.run fold_left last_assigned]; [reflexivity|].
  fold (Memory.run (map upsert_of kvs)
                   (Memory.step st (upsert_of (k0, v0)))).
  rewrite IH by (now apply MemoryFacts.plain_step).
  destruct (last_assigned fst snd k kvs); [reflexivity|].
  cbn [fst snd upsert_of Memory.step].
  destruct (String.eqb k0 k) eqn:E.
  - apply String.eqb_eq in E. subst. now apply MemoryFacts.upsert_own.
  - apply String.eqb_neq in E. now apply MemoryFacts.upsert_own_other.
Qed.

(** X5. Loading a batch of key/value pairs into the memory store, as the
    load test does: after the upserts, under every key other than
    [__proto__] the object [getAll] resolves to has the value the batch gave
    last for that key, and for a key the batch does not mention, what the
    store held before. *)
Theorem X5_getAll_after_batch_of_upserts :
  forall (history : list Memory.op) (kvs : list (string * value)) (k : string),
    k <> PROTO ->
    let st := Memory.run (history ++ map upsert_of kvs) Memory.new_store in
    exists all,
      fst (Memory.getAll st) = Resolved all /\
      lookup (props all) k =
      match last_assigned fst snd k kvs with
      | Some v => Some v
      | None => Memory.own (Memory.run history Memory.new_store) k
      end.
Proof.
  intros history kvs k Hk st.
  destruct (@GetAllContract.memory_getAll_lookup
              (history ++ map upsert_of kvs) k Hk) as (all & Hall & Hl).
  exists all. split; [exact Hall|].
  rewrite Hl, memory_run_app.
  apply own_after_upserts, MemoryFacts.plain_reachable.
Qed.

Lemma X5_getAll_after_batch_of_upserts_witness :
  let kvs := [("TEST_KEY_0", VArr []); ("b_1", VObj None []);
              ("TEST_KEY_0", VArr [VNum 1])] in
  let st := Memory.run (map upsert_of kvs) Memory.new_store in
  exists all,
    fst (Memory.getAll st) = Resolved all /\
    lookup (props all) "TEST_KEY_0" = Some (VArr [VNum 1]).
Proof.
  intros kvs st.
  assert (Hk : "TEST_KEY_0" <> PROTO) by discriminate.
  exact (@X5_getAll_after_batch_of_upserts [] kvs "TEST_KEY_0" Hk).
Defined.

(** X6. Deleting twice: in both stores, on any store reached by a sequence
    of operations (Postgres: with the database reachable), a second
    [delete(k)] right after a [delete(k)] resolves to 0 and changes
    nothing. *)
Theorem X6_second_delete_resolves_to_zero :
  forall (mhistory : list Memory.op) (phistory : list Postgres.op) (k : string),
    let st := snd (Memory.delete k (Memory.run mhistory Memory.new_store)) in
    let db := snd (Postgres.delete k
                     (Postgres.run phistory (Postgres.new_database None))) in
    Memory.delete k st = (Resolved 0%Z, st) /\
    Postgres.delete k db = (Resolved 0%Z, db).
Proof.
  intros mhistory phistory k st db. split.
  - assert (Hp : Memory.plain st).
    { apply (@MemoryFacts.plain_step _ (Memory.Delete k)),
        MemoryFacts.plain_reachable. }
    destruct (DeleteContract.memory_delete k
                (MemoryFacts.plain_reachable mhistory)) as (_ & Hc & _).
    fold st in Hc.
    destruct (DeleteContract.memory_delete k Hp) as (H1 & _ & H3).
    rewrite Hc in H1. rewrite (surjective_pairing (Memory.delete k st)).
    now rewrite H1, (H3 Hc).
  - pose (db0 := Postgres.run (phistory ++ [Postgres.Delete k])
                              (Postgres.new_database None)).
    assert (Hdb : db = db0).
    { unfold db0. now rewrite postgres_run_app. }
    assert (Hup : Postgres.outage db = None).
    { rewrite Hdb. unfold db0. now rewrite PostgresFacts.run_outage. }
    assert (Hpk : Postgres.primary_key (Postgres.KVS db)).
    { rewrite Hdb. apply PostgresFacts.reachable_primary_key. }
    assert (Hup0 : Postgres.outage
                     (Postgres.run phistory (Postgres.new_database None)) = None).
    { now rewrite PostgresFacts.run_outage. }
    destruct (@DeleteContract.postgres_delete _ k Hup0
                (PostgresFacts.reachable_primary_key phistory None))
      as (_ & Hc & _).
    fold db in Hc.
    destruct (@DeleteContract.postgres_delete db k Hup Hpk) as (H1 & _ & H3).
    rewrite Hc in H1. rewrite (surjective_pairing (Postgres.delete k db)).
    now rewrite H1, (H3 Hc).
Qed.

(** X7. After [nuke()] no key is bound: in both stores, whatever came
    before (Postgres: with the database reachable), for every key [get]
    resolves to [undefined] and [delete] resolves to 0. *)
Theorem X7_nothing_is_bound_after_nuke :
  forall (mhistory : list Memory.op) (phistory : list Postgres.op) (k : string),
    let st := snd (Memory.nuke (Memory.run mhistory Memory.new_store)) in
    let db := snd (Postgres.nuke
                     (Postgres.run phistory (Postgres.new_database None))) in
    (fst (Memory.get k st) = Returned (Resolved VUndefined) /\
     fst (Memory.delete k st) = Resolved 0%Z) /\
    (fst (Postgres.get k db) = Resolved VUndefined /\
     fst (Postgres.delete k db) = Resolved 0%Z).
Proof.
  intros mhistory phistory k st db. split.
  - assert (Hp : Memory.plain st) by reflexivity.
    split.
    + now rewrite MemoryFacts.get_own by exact Hp.
    + now destruct (DeleteContract.memory_delete k Hp) as (-> & _).
  - assert (Hup : Postgres.outage
                    (Postgres.run phistory (Postgres.new_database None)) = None).
    { now rewrite PostgresFacts.run_outage. }
    unfold db, Postgres.nuke.
    rewrite (@PostgresFacts.query_up _ _ Hup). cbn [snd Postgres.execute].
    split; reflexivity.
Qed.

End Sequences.

(** ** More on the Postgres store *)

Module PostgresMore.
Import JS JSFacts Postgres PostgresFacts PostgresOps.

Lemma get_rows db k :
  outage db = None ->
  get k db =
  (Resolved match rows_of k db with
            | [] => VUndefined
            | r :: _ => JS.get (row_value r) "value"
            end, db).
Proof.
  intros Hup. unfold get, rows_of. rewrite (@query_up _ db Hup).
  cbn [fst snd execute then_ rows].
  destruct db as [tbl out]. simpl in *. subst out.
  now destruct (filter (key_is k) tbl).
Qed.

Lemma substring_length m s : String.length (String.substring 0 m s) <= m.
Proof.
  revert s. induction m as [|m IH]; intros [|c s]; simpl; auto using le_n_S.
  apply Nat.le_0_l.
Qed.

Lemma varchar_length n s s' :
  varchar n s = Some s' -> String.length s' <= n.
Proof.
  unfold varchar. destruct (Nat.leb (String.length s) n) eqn:E.
  - intros [= <-]. now apply Nat.leb_le.
  - destruct (all_spaces (slice n s)); [|discriminate].
    intros [= <-]. apply substring_length.
Qed.

Lemma step_rows_ok db o :
  Forall row_ok (KVS db) -> Forall row_ok (KVS (step db o)).
Proof.
  intros H. rewrite step_query, query_table.
  destruct (outage db); [assumption|].
  destruct o; cbn [statement execute snd]; try assumption.
  - unfold upsert_function, insert.
    assert (Hupd : Forall row_ok (update key0 (VObj None [("value", value0)]) (KVS db))).
    { unfold update. rewrite Forall_forall in H.
      apply Forall_app. split; apply Forall_forall; intros r Hin.
      - apply filter_In in Hin. apply H. tauto.
      - apply in_map_iff in Hin as (r0 & <- & Hin0).
        apply filter_In in Hin0. destruct Hin0 as [Hin0 _].
        split; [apply (H r0 Hin0) | now exists value0]. }
    destruct (varchar KEY_MAX key0) as [k'|] eqn:V; [|assumption].
    destruct (existsb (key_is k') (KVS db)); [assumption|].
    apply Forall_app. split; [assumption|].
    constructor; [|constructor].
    split; [now apply varchar_length in V | now exists value0].
  - apply Forall_forall. intros r Hin. apply filter_In in Hin.
    rewrite Forall_forall in H. apply H. tauto.
  - constructor.
Qed.

Lemma run_rows_ok ops db :
  Forall row_ok (KVS db) -> Forall row_ok (KVS (run ops db)).
Proof.
  revert db. induction ops as [|o ops IH]; simpl; intros db H; [assumption|].
  apply IH, step_rows_ok, H.
Qed.

(** X8. What the table looks like after any sequence of operations: no two
    rows have the same key, every key fits the column, and every document is
    an envelope [{"value": v}], so that [row.value.value] always reads a
    member of an object. *)
Theorem X8_table_invariant :
  forall (history : list op) (out : option error),
    let db := run history (new_database out) in
    NoDup (map row_key (KVS db)) /\
    Forall (fun r => String.length (row_key r) <= KEY_MAX /\
                     exists v, row_value r = VObj None [("value", v)])
           (KVS db).
Proof.
  intros history out db. split.
  - apply reachable_primary_key.
  - apply run_rows_ok. constructor.
Qed.

Lemma filter_filter_other k k' tbl :
  k' <> k ->
  filter (key_is k) (filter (fun r => negb (key_is k' r)) tbl) =
  filter (key_is k) tbl.
Proof.
  intros Hne. induction tbl as [|r tbl IH]; simpl; [reflexivity|].
  destruct (key_is k' r) eqn:E1; simpl; rewrite IH; [|reflexivity].
  unfold key_is in *. apply String.eqb_eq in E1. rewrite E1.
  apply String.eqb_neq in Hne. now rewrite Hne.
Qed.

Lemma filter_update_other k k' e tbl :
  k' <> k ->
  filter (key_is k) (update k' e tbl) = filter (key_is k) tbl.
Proof.
  intros Hne. unfold update.
  rewrite filter_app, filter_filter_other by assumption.
  replace (filter (key_is k)
             (map (fun r => Row (row_key r) e) (filter (key_is k') tbl)))
    with (@nil row); [apply app_nil_r|].
  symmetry. induction tbl as [|r tbl IH]; simpl; [reflexivity|].
  destruct (key_is k' r) eqn:E1; simpl; [|exact IH].
  unfold key_is in *. simpl. apply String.eqb_eq in E1. rewrite E1.
  apply String.eqb_neq in Hne. now rewrite Hne.
Qed.

Lemma existsb_filter_nonempty k tbl :
  filter (key_is k) tbl <> [] -> existsb (key_is k) tbl = true.
Proof.
  induction tbl as [|r tbl IH]; simpl; [congruence|].
  destruct (key_is k r); simpl; auto.
Qed.

(** An upsert of another key leaves the rows of [k] alone, when [k] has a
    row or the other key fits the column. *)
Lemma upsert_function_other k k' e tbl :
  k' <> k ->
  existsb (key_is k) tbl = true \/ String.length k' <= KEY_MAX ->
  filter (key_is k) (upsert_function k' e tbl) = filter (key_is k) tbl.
Proof.
  intros Hne Hor. unfold upsert_function, insert.
  destruct (varchar KEY_MAX k') as [k''|] eqn:V;
    [|now apply filter_update_other].
  destruct (existsb (key_is k'') tbl) eqn:E;
    [now apply filter_update_other|].
  rewrite filter_app. simpl. unfold key_is at 2. simpl.
  destruct (String.eqb k'' k) eqn:E2; [|apply app_nil_r].
  apply String.eqb_eq in E2. subst k''. exfalso.
  destruct Hor as [Hp | Hfit]; [congruence|].
  rewrite EnvelopeContract.varchar_fits in V by assumption. congruence.
Qed.

Lemma step_rows_kept db o k :
  writes k o = false ->
  rows_of k db <> [] ->
  rows_of k (step db o) = rows_of k db.
Proof.
  intros Hw Hp. unfold rows_of in *. rewrite step_query, query_table.
  destruct (outage db); [reflexivity|].
  destruct o; cbn [statement execute snd writes] in *;
    try reflexivity; try discriminate; apply String.eqb_neq in Hw.
  - apply upsert_function_other; [assumption|].
    left. now apply existsb_filter_nonempty.
  - now apply filter_filter_other.
Qed.

Lemma step_rows_absent db o k :
  upserts k o = false ->
  key_fits o = true ->
  rows_of k db = [] ->
  rows_of k (step db o) = [].
Proof.
  intros Hu Hf Hn. unfold rows_of in *. rewrite step_query, query_table.
  destruct (outage db); [assumption|].
  destruct o; cbn [statement execute snd upserts key_fits] in *;
    try assumption; try reflexivity.
  - apply String.eqb_neq in Hu. apply Nat.leb_le in Hf.
    rewrite upsert_function_other; auto.
  - destruct (String.eqb key0 k) eqn:E.
    + apply String.eqb_eq in E. subst.
      pose proof (existsb_filter_out k (KVS db)) as H.
      now destruct (filter_key_is_absent _ _ H) as [-> _].
    + apply String.eqb_neq in E. now rewrite filter_filter_other.
Qed.

Lemma run_rows_kept ops db k :
  forallb (fun o => negb (writes k o)) ops = true ->
  rows_of k db <> [] ->
  rows_of k (run ops db) = rows_of k db.
Proof.
  revert db. induction ops as [|o ops IH]; simpl; intros db H Hp;
    [reflexivity|].
  apply andb_true_iff in H as [Ho Hops]. apply negb_true_iff in Ho.
  fold (run ops (step db o)).
  rewrite IH; [now apply step_rows_kept | assumption |].
  now rewrite step_rows_kept.
Qed.

Lemma run_rows_absent ops db k :
  forallb (fun o => negb (upserts k o)) ops = true ->
  forallb key_fits ops = true ->
  rows_of k db = [] ->
  rows_of k (run ops db) = [].
Proof.
  revert db. induction ops as [|o ops IH]; simpl; intros db H Hf Hn;
    [assumption|].
  apply andb_true_iff in H as [Ho Hops]. apply negb_true_iff in Ho.
  apply andb_true_iff in Hf as [Hfo Hfops].
  apply IH; [assumption | assumption | now apply step_rows_absent].
Qed.

(** X9. The store contract on the Postgres store, with the database
    reachable and for a key [k] that fits the column: after [upsert(k,v)],
    [get(k)] resolves to [v] itself after any further operations none of
    which is an upsert or delete of [k] or a nuke; after [delete(k)],
    [get(k)] resolves to [undefined] after any further operations that
    upsert only other keys, which fit the column. *)
Theorem X9_postgres_get_returns_last_upsert :
  forall (history later1 later2 : list op) (k : string) (v : JS.value),
    String.length k <= KEY_MAX ->
    forallb (fun o => negb (writes k o)) later1 = true ->
    forallb (fun o => negb (upserts k o)) later2 = true ->
    forallb key_fits later2 = true ->
    let db := run history (new_database None) in
    fst (get k (run later1 (snd (upsert k v db)))) = Resolved v /\
    fst (get k (run later2 (snd (delete k db)))) = Resolved VUndefined.
Proof.
  intros history later1 later2 k v Hlen H1 H2 H3 db.
  assert (Hup : outage db = None).
  { unfold db. now rewrite run_outage. }
  split.
  - change (snd (upsert k v db)) with (step db (Upsert k v)).
    rewrite get_rows by (now rewrite run_outage, step_outage).
    cbn [fst].
    assert (Hrows : exists r rest,
               rows_of k (step db (Upsert k v)) = r :: rest /\
               row_value r = VObj None [("value", v)]).
    { unfold rows_of. rewrite step_query, query_table, Hup.
      cbn [statement execute snd].
      now apply EnvelopeContract.select_after_upsert. }
    destruct Hrows as (r & rest & Hr & Hv).
    rewrite run_rows_kept by (assumption || now rewrite Hr).
    now rewrite Hr, Hv.
  - change (snd (delete k db)) with (step db (Delete k)).
    rewrite get_rows by (now rewrite run_outage, step_outage).
    cbn [fst].
    rewrite run_rows_absent; try assumption; [reflexivity|].
    unfold rows_of. rewrite step_query, query_table, Hup.
    cbn [statement execute snd].
    pose proof (existsb_filter_out k (KVS db)) as H.
    now destruct (filter_key_is_absent _ _ H) as [-> _].
Qed.

Lemma X9_postgres_get_returns_last_upsert_witness :
  let k := "TEST_KEY" in
  let v := VArr [VNum 1; VNum 2] in
  let db := run [Upsert "other" (VObj None [])] (new_database None) in
  fst (get k (run [Get k; Upsert "other" (VArr []); Delete "gone"; GetAll]
                  (snd (upsert k v db)))) = Resolved v /\
  fst (get k (run [Get k; Delete k; Nuke; Upsert "other" (VArr [])]
                  (snd (delete k db)))) = Resolved VUndefined.
Proof.
  intros k v db.
  apply (@X9_postgres_get_returns_last_upsert
           [Upsert "other" (VObj None [])]
           [Get k; Upsert "other" (VArr []); Delete "gone"; GetAll]
           [Get k; Delete k; Nuke; Upsert "other" (VArr [])]
           k v); [apply Nat.leb_le | | | ]; reflexivity.
Defined.

(** X10. [getAll] shows an upsert unwrapped: with the database reachable,
    for a key [k] that fits the column and is not [__proto__], after
    [upsert(k,v)] the object [getAll] resolves to has [v] itself under
    [k]. *)
Theorem X10_postgres_getAll_after_upsert :
  forall (history : list op) (k : string) (v : JS.value),
    String.length k <= KEY_MAX ->
    k <> PROTO ->
    let db := snd (upsert k v (run history (new_database None))) in
    exists all,
      fst (getAll db) = Resolved all /\ lookup (props all) k = Some v.
Proof.
  intros history k v Hlen Hk db.
  assert (Hdb : db = run (history ++ [Upsert k v]) (new_database None)).
  { unfold db. now rewrite Sequences.postgres_run_app. }
  assert (Hup : outage (run history (new_database None)) = None).
  { now rewrite run_outage. }
  destruct (@EnvelopeContract.postgres_getAll_lookup
              (history ++ [Upsert k v]) k Hk) as (all & Hall & _ & Hin).
  rewrite <- Hdb in Hall, Hin.
  exists all. split; [exact Hall|].
  pose proof (@EnvelopeContract.postgres_get_after_upsert _ k v Hup Hlen) as Hg.
  fold db in Hg.
  destruct Hin as (x & Hx & Hgx).
  - apply existsb_filter_nonempty.
    rewrite get_rows in Hg.
    + unfold contains. fold (rows_of k db).
      destruct (rows_of k db) eqn:E; [|discriminate].
      (* no row: [get] would have resolved to [undefined] *)
      exfalso. cbn [fst] in Hg.
      destruct (@EnvelopeContract.select_after_upsert
                  k (VObj None [("value", v)])
                  (KVS (run history (new_database None))) Hlen)
        as (r & rest & Hr & _).
      unfold rows_of, db, upsert in E.
      rewrite (@query_up _ _ Hup) in E. cbn [snd execute KVS] in E.
      congruence.
    + unfold db, upsert. now rewrite query_outage.
  - rewrite Hx. congruence.
Qed.

Lemma X10_postgres_getAll_after_upsert_witness :
  let db := snd (upsert "b" (VArr [VNum 1])
                        (run [Upsert "a" (VObj None [])] (new_database None))) in
  exists all,
    fst (getAll db) = Resolved all /\
    lookup (props all) "b" = Some (VArr [VNum 1]).
Proof.
  intros db.
  assert (Hlen : String.length "b" <= KEY_MAX) by (apply Nat.leb_le; reflexivity).
  assert (Hk : "b" <> PROTO) by discriminate.
  exact (@X10_postgres_getAll_after_upsert
           [Upsert "a" (VObj None [])] "b" (VArr [VNum 1]) Hlen Hk).
Defined.

Lemma update_absent k e tbl :
  existsb (key_is k) tbl = false -> update k e tbl = tbl.
Proof.
  intros H. unfold update.
  destruct (filter_key_is_absent _ _ H) as [-> ->]. apply app_nil_r.
Qed.

(** X11. A key too long for the column is dropped in silence: with the
    database reachable, for a key of more than 1024 characters whose excess
    is not all spaces, [upsert(k,v)] resolves (the insert raises, the
    exception handler updates no row), the table is unchanged, and [get(k)]
    resolves to [undefined]. *)
Theorem X11_overlong_key_is_dropped :
  forall (history : list op) (k : string) (v : JS.value),
    KEY_MAX < String.length k ->
    all_spaces (slice KEY_MAX k) = false ->
    let db := run history (new_database None) in
    (exists r, fst (upsert k v db) = Resolved r) /\
    snd (upsert k v db) = db /\
    fst (get k (snd (upsert k v db))) = Resolved VUndefined.
Proof.
  intros history k v Hlong Hsp db.
  assert (Hup : outage db = None).
  { unfold db. now rewrite run_outage. }
  assert (Habs : existsb (key_is k) (KVS db) = false).
  { apply existsb_key_is_not_In. intros Hin.
    apply in_map_iff in Hin as (r & Hr & Hin).
    pose proof (@run_rows_ok history (new_database None) (Forall_nil _)) as Hok.
    rewrite Forall_forall in Hok. destruct (Hok r Hin) as [Hl _].
    rewrite Hr in Hl. apply (Nat.lt_irrefl KEY_MAX).
    eapply Nat.lt_le_trans; eauto. }
  assert (Hsame : snd (upsert k v db) = db).
  { unfold upsert. rewrite (@query_up _ db Hup). cbn [snd execute].
    unfold upsert_function, insert, varchar.
    apply Nat.leb_gt in Hlong. rewrite Hlong, Hsp.
    rewrite update_absent by assumption.
    destruct db; simpl in *. now subst. }
  split; [|split; [exact Hsame|]].
  - unfold upsert. rewrite (@query_up _ db Hup). cbn [fst]. eauto.
  - rewrite Hsame, get_rows by assumption. cbn [fst]. unfold rows_of.
    now destruct (filter_key_is_absent _ _ Habs) as [-> _].
Qed.

Lemma X11_overlong_key_is_dropped_witness :
  let k := repeat_char 1025 "a"%char in
  let db := run [Upsert "a" (VArr [])] (new_database None) in
  snd (upsert k (VArr [VNum 1]) db) = db /\
  fst (get k (snd (upsert k (VArr [VNum 1]) db))) = Resolved VUndefined.
Proof.
  intros k db.
  assert (Hlong : KEY_MAX < String.length k).
  { apply Nat.ltb_lt. vm_compute. reflexivity. }
  assert (Hsp : all_spaces (slice KEY_MAX k) = false).
  { vm_compute. reflexivity. }
  destruct (@X11_overlong_key_is_dropped
              [Upsert "a" (VArr [])] k (VArr [VNum 1]) Hlong Hsp)
    as (_ & H2 & H3).
  split; [exact H2 | exact H3].
Defined.

End PostgresMore.

(** ** The memory store mirrors the Postgres store *)

Module MirrorFacts.
Import JS JSFacts Mirror.

Lemma eqb_prepKey a b :
  String.eqb (Memory.prepKey a) (Memory.prepKey b) = String.eqb a b.
Proof.
  destruct (String.eqb a b) eqn:E.
  - apply String.eqb_eq in E. subst. apply String.eqb_refl.
  - apply String.eqb_neq in E. apply String.eqb_neq.
    now apply MemoryFacts.prepKey_neq.
Qed.

Lemma lookup_image tbl k :
  lookup (map image tbl) (Memory.prepKey k) =
  match filter (Postgres.key_is k) tbl with
  | [] => None
  | r :: _ => Some (unwrap r)
  end.
Proof.
  induction tbl as [|r tbl IH]; cbn [map lookup filter]; [reflexivity|].
  unfold image at 1. rewrite eqb_prepKey. unfold Postgres.key_is at 1.
  now destruct (String.eqb (Postgres.row_key r) k).
Qed.

Lemma lookup_image_exists tbl k :
  lookup (map image tbl) (Memory.prepKey k) = None <->
  existsb (Postgres.key_is k) tbl = false.
Proof.
  rewrite lookup_image. split; intros H.
  - destruct (existsb (Postgres.key_is k) tbl) eqn:E; [|reflexivity].
    apply EnvelopeContract.filter_nonempty in E.
    now destruct (filter (Postgres.key_is k) tbl).
  - now destruct (PostgresFacts.filter_key_is_absent _ _ H) as [-> _].
Qed.

Lemma image_delete k tbl :
  map image (filter (fun r => negb (Postgres.key_is k r)) tbl) =
  remove (map image tbl) (Memory.prepKey k).
Proof.
  unfold remove.
  induction tbl as [|r tbl IH]; cbn [map filter]; [reflexivity|].
  unfold image at 2. cbn [fst]. rewrite eqb_prepKey.
  unfold Postgres.key_is at 1.
  destruct (String.eqb (Postgres.row_key r) k); cbn [negb map];
    now rewrite IH.
Qed.

Lemma fold_left_over_map {A B C} (f : A -> B -> A) (g : C -> B) l a :
  fold_left f (map g l) a = fold_left (fun a x => f a (g x)) l a.
Proof. revert a. induction l; simpl; auto. Qed.

Lemma fold_left_same_in {A B} (f g : A -> B -> A) l a :
  (forall a x, In x l -> f a x = g a x) ->
  fold_left f l a = fold_left g l a.
Proof.
  revert a. induction l as [|x l IH]; simpl; intros a H; [reflexivity|].
  rewrite H by now left. apply IH. intros; apply H; now right.
Qed.

Lemma NoDup_image_keys tbl :
  Postgres.primary_key tbl -> NoDup (map fst (map image tbl)).
Proof.
  unfold Postgres.primary_key.
  induction tbl as [|r tbl IH]; cbn [map]; intros H; constructor;
    inversion H as [|? ? Hn Hd]; subst; [|auto].
  intros Hin. apply Hn. rewrite map_map in Hin.
  apply in_map_iff in Hin as (r' & Hk & Hin). cbn [image fst] in Hk.
  apply MemoryFacts.prepKey_inj in Hk. rewrite <- Hk. now apply in_map.
Qed.

Lemma filter_perm {A} (f : A -> bool) l l' :
  Permutation l l' -> Permutation (filter f l) (filter f l').
Proof.
  induction 1 as [|x l l' _ IH|x y l|l l' l'' _ IH1 _ IH2]; simpl.
  - constructor.
  - destruct (f x); [now constructor | assumption].
  - destruct (f x), (f y); try reflexivity. apply perm_swap.
  - now transitivity (filter f l').
Qed.

Lemma lookup_perm ps ps' k :
  Permutation ps ps' -> NoDup (map fst ps) -> lookup ps k = lookup ps' k.
Proof.
  intros Hperm Hnd.
  assert (Hnd' : NoDup (map fst ps')).
  { eapply Permutation_NoDup; [apply Permutation_map, Hperm | exact Hnd]. }
  destruct (lookup ps k) as [x|] eqn:L.
  - symmetry. apply lookup_In_NoDup; [assumption|].
    eapply Permutation_in; [exact Hperm | now apply lookup_Some_In].
  - symmetry. apply lookup_None_not_In. apply lookup_None_not_In in L.
    intros Hin. apply L.
    eapply Permutation_in; [apply Permutation_sym, Permutation_map, Hperm|].
    exact Hin.
Qed.

Lemma remove_absent ps k : lookup ps k = None -> remove ps k = ps.
Proof.
  unfold remove. induction ps as [|[k' v'] ps IH]; simpl; [reflexivity|].
  destruct (String.eqb k' k); [discriminate|]. intros H. simpl.
  now rewrite IH.
Qed.

(** Overwriting in place, up to order: taking the name out and putting it
    back with the new value. *)
Lemma replace_perm ps k v x :
  NoDup (map fst ps) -> lookup ps k = Some x ->
  Permutation (replace ps k v) ((k, v) :: remove ps k).
Proof.
  induction ps as [|[k' v'] ps IH]; cbn [map fst lookup replace];
    intros Hnd L; [discriminate|].
  inversion Hnd as [|? ? Hn Hd]; subst. unfold remove. cbn [filter fst].
  destruct (String.eqb k' k) eqn:E; cbn [negb].
  - apply String.eqb_eq in E. subst k'.
    apply lookup_None_not_In in Hn.
    fold (remove ps k). now rewrite remove_absent.
  - fold (remove ps k).
    transitivity ((k', v') :: (k, v) :: remove ps k);
      [constructor; now apply IH | apply perm_swap].
Qed.

Lemma one_row k tbl :
  Postgres.primary_key tbl ->
  existsb (Postgres.key_is k) tbl = true ->
  exists r, filter (Postgres.key_is k) tbl = [r] /\ Postgres.row_key r = k.
Proof.
  intros Hpk E. pose proof (PostgresFacts.count_key_is k Hpk) as Hc.
  rewrite E in Hc.
  destruct (filter (Postgres.key_is k) tbl) as [|r [|r' rest]] eqn:F;
    cbn [List.length] in Hc; try lia.
  exists r. split; [reflexivity|].
  assert (Hin : In r (filter (Postgres.key_is k) tbl)) by (rewrite F; now left).
  apply filter_In in Hin. destruct Hin as [_ Hk].
  now apply String.eqb_eq in Hk.
Qed.

(** The update of the table and the overwrite in the store object agree, up
    to order. *)
Lemma image_update k v ps tbl x :
  Postgres.primary_key tbl ->
  existsb (Postgres.key_is k) tbl = true ->
  Permutation ps (map image tbl) ->
  lookup ps (Memory.prepKey k) = Some x ->
  Permutation (replace ps (Memory.prepKey k) v)
              (map image (Postgres.update k (VObj None [("value", v)]) tbl)).
Proof.
  intros Hpk E Hperm L.
  assert (Hnd : NoDup (map fst ps)).
  { eapply Permutation_NoDup;
      [apply Permutation_sym, Permutation_map, Hperm |
       now apply NoDup_image_keys]. }
  destruct (one_row k Hpk E) as (r & Hr & Hk).
  unfold Postgres.update. rewrite Hr, map_app, image_delete.
  cbn [map]. unfold image at 2. cbn [Postgres.row_key Postgres.row_value].
  unfold unwrap. cbn [Postgres.row_value]. rewrite Hk.
  change (JS.get (VObj None [("value", v)]) "value") with v.
  transitivity ((Memory.prepKey k, v) :: remove ps (Memory.prepKey k));
    [eapply replace_perm; eauto|].
  transitivity ((Memory.prepKey k, v)
                  :: remove (map image tbl) (Memory.prepKey k));
    [constructor; now apply filter_perm | apply Permutation_cons_append].
Qed.

(** What a loop of assignments under distinct names makes of an object
    none of the names is a member of: the pairs other than [__proto__]
    become members, in order, and a pair for [__proto__] replaces the
    prototype, when its value is an object or [null]. *)
Lemma assign_distinct items o :
  NoDup (map fst items) ->
  (forall k, In k (map fst items) -> lookup (props o) k = None) ->
  (In PROTO (map fst items) -> proto o = None) ->
  assign o items =
  Obj match lookup items PROTO with
      | Some v => if replaces_prototype v then Some v else proto o
      | None => proto o
      end
      (props o ++ filter (fun p => negb (String.eqb (fst p) PROTO)) items).
Proof.
  revert o. induction items as [|[k v] items IH]; intros o Hnd Hfresh Hproto.
  - simpl. rewrite app_nil_r. now destruct o.
  - cbn [map fst] in Hnd. inversion Hnd as [|? ? Hn Hd]; subst.
    unfold assign. cbn [fold_left fst snd lookup filter].
    fold (assign (set o k v) items).
    assert (Hown : lookup (props o) k = None) by (apply Hfresh; now left).
    destruct (String.eqb k PROTO) eqn:E; cbn [negb].
    + apply String.eqb_eq in E. subst k.
      assert (Hp : proto o = None) by (apply Hproto; now left).
      assert (Hset : set o PROTO v =
                     if replaces_prototype v then Obj (Some v) (props o) else o).
      { unfold set. rewrite Hown, Hp. cbn. now destruct v. }
      assert (Hl : lookup items PROTO = None)
        by now apply lookup_None_not_In.
      rewrite IH; [| assumption | | intros Hin; contradiction].
      * rewrite Hl, Hset.
        destruct (replaces_prototype v); cbn [proto props]; now rewrite ?Hp.
      * intros k Hin. rewrite Hset.
        destruct (replaces_prototype v); apply Hfresh; now right.
    + apply String.eqb_neq in E.
      assert (Hset : set o k v = Obj (proto o) (props o ++ [(k, v)])).
      { unfold set. rewrite Hown.
        destruct (resolve (VObj (proto o) []) k) eqn:R; try reflexivity.
        apply resolve_accessor in R. contradiction. }
      rewrite IH; [| assumption | |].
      * rewrite Hset. cbn [proto props]. now rewrite <- app_assoc.
      * intros k' Hin. rewrite Hset. cbn [props].
        rewrite lookup_app, (Hfresh k' (or_intror Hin)). cbn [lookup].
        destruct (String.eqb k k') eqn:E'; [|reflexivity].
        apply String.eqb_eq in E'. subst. contradiction.
      * intros Hin. rewrite Hset. cbn [proto]. apply Hproto. now right.
Qed.

(** The same assignments in another order make an object with the same
    prototype and the same members. *)
Lemma assign_perm items items' :
  Permutation items items' ->
  NoDup (map fst items) ->
  Store.same_members (assign JS.empty items) (assign JS.empty items').
Proof.
  intros Hperm Hnd.
  assert (Hnd' : NoDup (map fst items')).
  { eapply Permutation_NoDup; [apply Permutation_map, Hperm | exact Hnd]. }
  rewrite !assign_distinct; try assumption; try reflexivity.
  split; cbn [proto props app].
  - now rewrite (lookup_perm PROTO Hperm Hnd).
  - now apply filter_perm.
Qed.

Lemma unmunge_image r : unmunge (image r) = (Postgres.row_key r, unwrap r).
Proof.
  unfold unmunge, image. cbn [fst snd].
  now rewrite MemoryFacts.slice_prepKey.
Qed.

(** The two [getAll] build objects with the same prototype and the same
    members. *)
Lemma getAll_mirrors st db :
  mirrors st db ->
  exists a b,
    fst (Memory.getAll st) = Resolved a /\
    fst (Postgres.getAll db) = Resolved b /\
    Store.same_members a b.
Proof.
  intros (Hup & Hp & Hperm & Hpk & _).
  assert (Hnd : NoDup (map fst (props st))).
  { eapply Permutation_NoDup;
      [apply Permutation_sym, Permutation_map, Hperm |
       now apply NoDup_image_keys]. }
  unfold Memory.getAll, Postgres.getAll.
  rewrite (@PostgresFacts.query_up _ db Hup).
  cbn [fst snd Postgres.execute then_ Postgres.rows].
  do 2 eexists. split; [reflexivity|]. split; [reflexivity|].
  assert (Hm : fold_left
                 (fun all prop =>
                    set all (slice (String.length Memory.KEY_PREFIX) prop)
                        (JS.get (of_object st) prop)) (keys st) JS.empty =
               assign JS.empty (map unmunge (props st))).
  { unfold assign, keys. rewrite !fold_left_over_map.
    apply fold_left_same_in. intros all p Hin. cbn [unmunge fst snd].
    f_equal.
    assert (Hin' : In p (map image (Postgres.KVS db)))
      by (eapply Permutation_in; eauto).
    apply in_map_iff in Hin' as (r & <- & _).
    rewrite get_plain by (assumption || apply MemoryFacts.prepKey_slot).
    now rewrite (@lookup_In_NoDup (props st) (fst (image r)) (snd (image r)))
      by (assumption || now destruct (image r)). }
  assert (Hd : fold_left
                 (fun all row =>
                    set all (Postgres.property_name (Postgres.key row))
                        (JS.get (Postgres.value row) "value"))
                 (map Postgres.result_row_of (Postgres.KVS db)) JS.empty =
               assign JS.empty (map unmunge (map image (Postgres.KVS db)))).
  { unfold assign. rewrite !fold_left_over_map.
    apply fold_left_same_in. intros all r _. now rewrite unmunge_image. }
  rewrite Hm, Hd. apply assign_perm; [now apply Permutation_map|].
  eapply Permutation_NoDup;
    [apply Permutation_sym, Permutation_map, Permutation_map, Hperm|].
  rewrite !map_map.
  erewrite map_ext; [exact Hpk|]. intros r. now rewrite unmunge_image.
Qed.

Lemma mirrors_new : mirrors Memory.new_store (Postgres.new_database None).
Proof. repeat split; constructor. Qed.

Lemma alike_refl x : Store.alike x x.
Proof.
  destruct x as [c|c|[[a|e]|e]|c]; simpl; try reflexivity.
  split; reflexivity.
Qed.

(** One operation on each store: the same observation, up to the order of
    the members [getAll] lists, and the stores mirror each other again. *)
Lemma perform_mirrors o st db :
  Store.fits o = true ->
  mirrors st db ->
  Store.alike (fst (Store.perform o st)) (fst (Store.perform o db)) /\
  mirrors (snd (Store.perform o st)) (snd (Store.perform o db)).
Proof.
  intros Hfit HR. pose proof HR as (Hup & Hp & Hperm & Hpk & Hstr).
  assert (Hnd : NoDup (map fst (props st))).
  { eapply Permutation_NoDup;
      [apply Permutation_sym, Permutation_map, Hperm |
       now apply NoDup_image_keys]. }
  assert (Hlook : forall k,
             lookup (props st) (Memory.prepKey k) =
             lookup (map image (Postgres.KVS db)) (Memory.prepKey k)).
  { intros k. now apply lookup_perm. }
  destruct o as [k v|k| |k|]; cbn [Store.fits] in Hfit.
  - (* upsert *)
    apply andb_true_iff in Hfit as [Hlen Hv]. apply Nat.leb_le in Hlen.
    cbn [Store.perform store_upsert memory_store postgres_store forget
         returned fst snd].
    rewrite MemoryFacts.upsert_returns, Hv, MemoryFacts.upsert_state.
    unfold Postgres.upsert. rewrite (@PostgresFacts.query_up _ db Hup).
    cbn [fst snd then_ Postgres.execute]. split; [reflexivity|].
    unfold Postgres.upsert_function, Postgres.insert.
    rewrite EnvelopeContract.varchar_fits by assumption.
    unfold set. rewrite Hp. cbn [proto props resolve lookup].
    rewrite MemoryFacts.prepKey_slot.
    destruct (existsb (Postgres.key_is k) (Postgres.KVS db)) eqn:E.
    + destruct (lookup (props st) (Memory.prepKey k)) eqn:L;
        [|rewrite Hlook in L; apply lookup_image_exists in L; congruence].
      repeat split; cbn [proto props Postgres.KVS Postgres.outage].
      * eapply image_update; eauto.
      * now apply PostgresFacts.update_primary_key.
      * unfold Postgres.update. rewrite Forall_forall in Hstr.
        apply Forall_app. split; apply Forall_forall; intros r Hin.
        -- apply filter_In in Hin. apply Hstr. tauto.
        -- apply in_map_iff in Hin as (r0 & <- & _). exact Hv.
    + apply lookup_image_exists in E as L. rewrite <- Hlook in L. rewrite L.
      repeat split; cbn [proto props Postgres.KVS Postgres.outage].
      * rewrite map_app. now apply Permutation_app_tail.
      * unfold Postgres.primary_key. rewrite map_app. simpl.
        apply PostgresFacts.existsb_key_is_not_In in E.
        apply NoDup_app; [assumption | constructor; [tauto | constructor] |].
        intros a Ha [<-|[]]. contradiction.
      * apply Forall_app. split; [assumption|].
        constructor; [exact Hv|constructor].
  - (* delete *)
    cbn [Store.perform store_delete memory_store postgres_store returned
         fst snd].
    destruct (DeleteContract.memory_delete k Hp) as (Hm1 & _ & Hm3).
    destruct (@DeleteContract.postgres_delete db k Hup Hpk) as (Hd1 & _ & Hd3).
    assert (Hc : Memory.contains st k = Postgres.contains db k).
    { unfold Memory.contains, Memory.own, Postgres.contains. rewrite Hlook.
      destruct (existsb (Postgres.key_is k) (Postgres.KVS db)) eqn:E.
      - destruct (lookup (map image (Postgres.KVS db)) (Memory.prepKey k)) eqn:L;
          [reflexivity | apply lookup_image_exists in L; congruence].
      - apply lookup_image_exists in E. now rewrite E. }
    rewrite Hm1, Hd1, Hc. split; [reflexivity|].
    destruct (Postgres.contains db k) eqn:E.
    + unfold Memory.delete, Postgres.delete.
      rewrite has_plain by (assumption || apply MemoryFacts.prepKey_slot).
      unfold Memory.contains, Memory.own in Hc.
      destruct (lookup (props st) (Memory.prepKey k)); [|discriminate].
      rewrite (@PostgresFacts.query_up _ db Hup).
      cbn [fst snd Postgres.execute].
      repeat split; cbn [JS.delete proto props Postgres.KVS Postgres.outage].
      * assumption.
      * rewrite image_delete. now apply filter_perm.
      * now apply PostgresFacts.NoDup_map_filter.
      * apply Forall_forall. intros r Hin. apply filter_In in Hin.
        rewrite Forall_forall in Hstr. apply Hstr. tauto.
    + rewrite Hm3, Hd3 by congruence. exact HR.
  - (* nuke *)
    cbn [Store.perform store_nuke memory_store postgres_store forget returned
         fst snd Memory.nuke].
    unfold Postgres.nuke. rewrite (@PostgresFacts.query_up _ db Hup).
    cbn [fst snd then_ Postgres.execute]. split; [reflexivity|].
    repeat split; constructor.
  - (* get *)
    cbn [Store.perform store_get memory_store postgres_store returned].
    rewrite MemoryFacts.get_own by exact Hp.
    rewrite PostgresMore.get_rows by exact Hup.
    cbv zeta. cbn [fst snd]. split; [|exact HR].
    unfold Memory.own, PostgresOps.rows_of. rewrite Hlook, lookup_image.
    destruct (filter (Postgres.key_is k) (Postgres.KVS db)) as [|r rest] eqn:F;
      [reflexivity|].
    assert (Hin : In r (Postgres.KVS db)).
    { assert (H : In r (filter (Postgres.key_is k) (Postgres.KVS db)))
        by (rewrite F; now left).
      apply filter_In in H. tauto. }
    rewrite Forall_forall in Hstr. unfold unwrap in *.
    now rewrite (Hstr r Hin).
  - (* getAll *)
    cbn [Store.perform store_getAll memory_store postgres_store returned
         fst snd].
    destruct (getAll_mirrors HR) as (a & b & Ha & Hb & Hab).
    split.
    + rewrite Ha, Hb. exact Hab.
    + unfold Memory.getAll, Postgres.getAll.
      rewrite (@PostgresFacts.query_up _ db Hup). cbn [fst snd Postgres.execute].
      destruct db; simpl in *. subst. exact HR.
Qed.




End MirrorFacts.

(** ** More on the router *)

Module RouterMore.
Import JS KeyJs.

Section AnyStore.

Context {S : Type} {store_impl : BackingStore S}.

(** X14. On the four routes that pass [next] as [onRejected], a store
    operation that fails, by a rejected promise or by throwing, is handed to
    the error handler with its error: for a request that passes the test of
    its route, the reply is [next(err)] (500), never a 2xx, a 400 or a 404,
    and the one store operation invoked is the one of the route. *)
Theorem X14_store_failure_reaches_error_handler :
  forall (config : config) (r : route) (req : request) (store : S) (e : error),
    r <> GET_all ->
    guarded config r req = true ->
    store_error r req store = Some e ->
    response (handle config r req store) = Next e /\
    status_of (response (handle config r req store)) = Some 500 /\
    calls (handle config r req store) = [operation r req].
Proof.
  intros config r req store e Hr Hg He.
  destruct r; cbn [handle guarded store_error operation] in *;
    try congruence.
  - unfold post_nuke. rewrite Hg.
    destruct (store_nuke store) as [[[u|e']|e'] s]; cbn in *;
      inversion He; auto.
  - unfold get_key.
    destruct (store_get (params_id req) store) as [[[u|e']|e'] s]; cbn in *;
      inversion He; auto.
  - unfold put_key. rewrite Hg. cbn [negb].
    destruct (store_upsert (params_id req) (body req) store)
      as [[[u|e']|e'] s]; cbn in *; inversion He; auto.
  - unfold delete_key.
    destruct (store_delete (params_id req) store) as [[[u|e']|e'] s];
      cbn in *; inversion He; auto.
Qed.

(** X15. Every request gets an answer but one: a handler sends no response
    and calls no [next] exactly on [GET /v1/all] when the promise of
    [store.getAll()] rejects.  Every answer is a 200, 201, 400 or 404, or
    the error handler's. *)
Theorem X15_only_get_all_leaves_a_request_unanswered :
  forall (config : config) (r : route) (req : request) (store : S),
    (response (handle config r req store) = NoReply <->
     r = GET_all /\ exists e, fst (store_getAll store) = Returned (Rejected e)) /\
    (forall s, status_of (response (handle config r req store)) = Some s ->
               In s [200; 201; 400; 404; 500]).
Proof.
  intros config r req store.
  assert (Hin : forall (rp : reply) s,
             rp <> NoReply ->
             (exists p, rp = Send 200 p \/ rp = Send 201 p \/
                        rp = Send 400 p \/ rp = Send 404 p) \/
             (exists e, rp = Next e) ->
             status_of rp = Some s -> In s [200; 201; 400; 404; 500]).
  { intros rp s _ [[p [H|[H|[H|H]]]]|[e H]] Hs; subst rp; simpl in Hs;
      inversion Hs; subst; simpl; tauto. }
  destruct r; cbn [handle].
  - unfold get_all.
    destruct (store_getAll store) as [[[u|e']|e'] s]; cbn [fst response].
    + split; [split; [discriminate | intros [_ [e H]]; discriminate H]|].
      intros code. apply Hin; [discriminate | left; eauto].
    + split; [split; [intros _; split; eauto | reflexivity]|].
      intros code H; discriminate H.
    + split; [split; [discriminate | intros [_ [e H]]; discriminate H]|].
      intros code. apply Hin; [discriminate | right; eauto].
  - unfold post_nuke. destruct (nuke_allowed config req);
      [destruct (store_nuke store) as [[[u|e']|e'] s]|]; cbn [response];
      (split; [split; [discriminate | intros [H _]; discriminate H]|]);
      intros code; apply Hin; try discriminate; eauto 7.
  - unfold get_key.
    destruct (store_get (params_id req) store) as [[[u|e']|e'] s];
      [destruct u|..]; cbn [response];
      (split; [split; [discriminate | intros [H _]; discriminate H]|]);
      intros code; apply Hin; try discriminate; eauto 7.
  - unfold put_key. destruct (negb (is_json req));
      [|destruct (store_upsert (params_id req) (body req) store)
          as [[[u|e']|e'] s]]; cbn [response];
      (split; [split; [discriminate | intros [H _]; discriminate H]|]);
      intros code; apply Hin; try discriminate; eauto 7.
  - unfold delete_key.
    destruct (store_delete (params_id req) store) as [[[u|e']|e'] s];
      [destruct (truthy (VNum u))|..]; cbn [response];
      (split; [split; [discriminate | intros [H _]; discriminate H]|]);
      intros code; apply Hin; try discriminate; eauto 7.
Qed.

End AnyStore.

(** X14 on the memory store: a PUT whose value makes [upsert] throw. *)
Lemma X14_store_failure_reaches_error_handler_witness :
  let req := Request true "k" (VObj None [("toString", VNum 1)]) in
  response (handle (Config VNull) PUT_key req Memory.new_store) =
    Next type_error /\
  status_of (response (handle (Config VNull) PUT_key req Memory.new_store)) =
    Some 500.
Proof.
  intros req.
  assert (Hr : PUT_key <> GET_all) by discriminate.
  destruct (@X14_store_failure_reaches_error_handler
              _ memory_store (Config VNull) PUT_key req Memory.new_store
              type_error Hr eq_refl eq_refl) as (H1 & H2 & _).
  split; [exact H1 | exact H2].
Defined.

End RouterMore.

(** ** The scenario of the test suite on the memory store *)

Module TestSuiteFacts.
Import JS KeyJs TestSuite.

Lemma append_nonempty_neq k s : s <> "" -> k <> k ++ s.
Proof.
  intros Hs. induction k as [|c k IH]; simpl.
  - congruence.
  - intros [= H]. auto.
Qed.

Lemma unknown_neq key : key <> unknown key.
Proof. apply append_nonempty_neq. discriminate. Qed.

Lemma value_defined v : is_value v = true -> v <> VUndefined.
Proof. intros H ->. discriminate. Qed.

Lemma put_memory key v st :
  stringifies v = true ->
  handle config PUT_key (sending key v) st =
  Outcome (Send 201 (Text ("Stored `" ++ key ++ "`.")))
          (snd (Memory.upsert key v st)) [CallUpsert key v].
Proof.
  intros Hv. cbn [handle]. unfold put_key.
  cbn [sending is_json negb params_id body store_upsert memory_store forget].
  now rewrite MemoryFacts.upsert_returns, Hv.
Qed.

Lemma get_memory_found key v st :
  Memory.plain st -> Memory.own st key = Some v ->
  stringifies v = true -> is_value v = true ->
  handle config GET_key (bare key) st =
  Outcome (Send 200 (Json v)) st [CallGet key].
Proof.
  intros Hp Ho Hs Hv. cbn [handle]. unfold get_key.
  cbn [bare params_id store_get memory_store].
  rewrite MemoryFacts.get_own by assumption. cbv zeta. rewrite Ho, Hs.
  destruct v; try discriminate Hv; reflexivity.
Qed.

Lemma get_memory_missing key st :
  Memory.plain st -> Memory.own st key = None ->
  handle config GET_key (bare key) st =
  Outcome (Send 404 (Text ("No value for key " ++ key))) st [CallGet key].
Proof.
  intros Hp Ho. cbn [handle]. unfold get_key.
  cbn [bare params_id store_get memory_store].
  rewrite MemoryFacts.get_own by assumption. cbv zeta. now rewrite Ho.
Qed.

Lemma delete_memory_found key v st :
  Memory.plain st -> Memory.own st key = Some v ->
  handle config DELETE_key (bare key) st =
  Outcome (Send 200 (Text ("Deleted " ++ key)))
          (snd (Memory.delete key st)) [CallDelete key].
Proof.
  intros Hp Ho. cbn [handle]. unfold delete_key.
  cbn [bare params_id store_delete memory_store returned].
  destruct (DeleteContract.memory_delete key Hp) as (Hd & _).
  unfold Memory.contains in Hd. rewrite Ho in Hd. now rewrite Hd.
Qed.

(** The replies to the nine requests. *)
Lemma replies_of_suite (history : list Memory.op) key val val2 :
  is_value val = true -> stringifies val = true ->
  is_value val2 = true -> stringifies val2 = true ->
  replies (requests key val val2) (Memory.run history Memory.new_store) =
  [ Send 200 (Text "Deleted all keys.");
    Send 200 (Json (VObj None []));
    Send 201 (Text ("Stored `" ++ key ++ "`."));
    Send 200 (Json val);
    Send 404 (Text ("No value for key " ++ unknown key));
    Send 201 (Text ("Stored `" ++ key ++ "`."));
    Send 200 (Json val2);
    Send 200 (Text ("Deleted " ++ key));
    Send 404 (Text ("No value for key " ++ key)) ].
Proof.
  intros Hv1 Hs1 Hv2 Hs2.
  pose (s1 := JS.empty).
  pose (s2 := snd (Memory.upsert key val s1)).
  pose (s3 := snd (Memory.upsert key val2 s2)).
  pose (s4 := snd (Memory.delete key s3)).
  assert (P1 : Memory.plain s1) by reflexivity.
  assert (P2 : Memory.plain s2)
    by apply (@MemoryFacts.plain_step s1 (Memory.Upsert key val) P1).
  assert (P3 : Memory.plain s3)
    by apply (@MemoryFacts.plain_step s2 (Memory.Upsert key val2) P2).
  assert (P4 : Memory.plain s4)
    by apply (@MemoryFacts.plain_step s3 (Memory.Delete key) P3).
  assert (O2 : Memory.own s2 key = Some val)
    by now apply MemoryFacts.upsert_own.
  assert (O2u : Memory.own s2 (unknown key) = None).
  { unfold s2. rewrite MemoryFacts.upsert_own_other by apply unknown_neq.
    reflexivity. }
  assert (O3 : Memory.own s3 key = Some val2)
    by now apply MemoryFacts.upsert_own.
  assert (O4 : Memory.own s4 key = None)
    by now apply MemoryFacts.delete_own.
  unfold requests. cbn [replies].
  change (handle config POST_nuke (sending "" confirmation)
                 (Memory.run history Memory.new_store))
    with (Outcome (Send 200 (Text "Deleted all keys.")) s1 [CallNuke]).
  cbn [response store_after].
  change (handle config GET_all (bare "") s1)
    with (Outcome (Send 200 (Json (VObj None []))) s1 [CallGetAll]).
  cbn [response store_after].
  rewrite (@put_memory key val s1 Hs1). cbn [response store_after]. fold s2.
  rewrite (@get_memory_found key val s2 P2 O2 Hs1 Hv1). cbn [response store_after].
  rewrite (@get_memory_missing (unknown key) s2 P2 O2u). cbn [response store_after].
  rewrite (@put_memory key val2 s2 Hs2). cbn [response store_after]. fold s3.
  rewrite (@get_memory_found key val2 s3 P3 O3 Hs2 Hv2). cbn [response store_after].
  rewrite (@delete_memory_found key val2 s3 P3 O3). cbn [response store_after]. fold s4.
  rewrite (@get_memory_missing key s4 P4 O4). reflexivity.
Qed.

Lemma suite_meets key val val2 :
  Forall2 meets
    [ Send 200 (Text "Deleted all keys.");
      Send 200 (Json (VObj None []));
      Send 201 (Text ("Stored `" ++ key ++ "`."));
      Send 200 (Json val);
      Send 404 (Text ("No value for key " ++ unknown key));
      Send 201 (Text ("Stored `" ++ key ++ "`."));
      Send 200 (Json val2);
      Send 200 (Text ("Deleted " ++ key));
      Send 404 (Text ("No value for key " ++ key)) ]
    (expectations val val2).
Proof.
  unfold expectations.
  repeat (constructor; [simpl; auto|]). constructor.
Qed.

(** X16. The test suite passes on the memory store for every key and every
    pair of values, JSON arrays or objects that convert to a string,
    whatever the store held before: the nuke is answered 200, [GET /v1/all]
    then 200 with [{}], the PUT 201, the GET 200 with the value, the GET of
    the key with the suffix 404, the second PUT 201, the GET 200 with the
    second value, the DELETE 200 and the last GET 404. *)
Theorem X16_test_suite_passes_on_memory_store :
  forall (history : list Memory.op) (key : string) (val val2 : value),
    is_value val = true -> stringifies val = true ->
    is_value val2 = true -> stringifies val2 = true ->
    Forall2 meets
            (replies (requests key val val2)
                     (Memory.run history Memory.new_store))
            (expectations val val2).
Proof.
  intros history key val val2 Hv1 Hs1 Hv2 Hs2.
  rewrite replies_of_suite by assumption.
  apply suite_meets.
Qed.

Lemma X16_test_suite_passes_on_memory_store_witness :
  let key := "Key 'with'...{punctuation}; (and spaces)." in
  let val := VArr [VStr "omg"; VNum 1; VBool true; VStr "wtf"; VBool false] in
  let val2 := VObj None [("a", VStr "value-a"); ("number", VNum 31338)] in
  Forall2 meets
          (replies (requests key val val2) Memory.new_store)
          (expectations val val2).
Proof.
  intros key val val2.
  exact (@X16_test_suite_passes_on_memory_store [] key val val2
           eq_refl eq_refl eq_refl eq_refl).
Defined.

End TestSuiteFacts.

(** ** One router, two stores *)

Module SessionFacts.
Import JS KeyJs Mirror Session.

Section Performs.

Context {S : Type} {store_impl : BackingStore S}.

Lemma perform_upsert k v (s : S) :
  Store.perform (Store.Upsert k v) s =
  (Store.Unit (fst (store_upsert k v s)), snd (store_upsert k v s)).
Proof. simpl. now destruct (store_upsert k v s). Qed.

Lemma perform_delete k (s : S) :
  Store.perform (Store.Delete k) s =
  (Store.Count (fst (store_delete k s)), snd (store_delete k s)).
Proof. simpl. now destruct (store_delete k s). Qed.

Lemma perform_nuke (s : S) :
  Store.perform Store.Nuke s =
  (Store.Unit (fst (store_nuke s)), snd (store_nuke s)).
Proof. simpl. now destruct (store_nuke s). Qed.

Lemma perform_get k (s : S) :
  Store.perform (Store.Get k) s =
  (Store.Value (fst (store_get k s)), snd (store_get k s)).
Proof. simpl. now destruct (store_get k s). Qed.

Lemma perform_getAll (s : S) :
  Store.perform Store.GetAll s =
  (Store.All (fst (store_getAll s)), snd (store_getAll s)).
Proof. simpl. now destruct (store_getAll s). Qed.

End Performs.

Lemma reply_alike_refl r x : reply_alike r x x.
Proof.
  destruct r; try reflexivity.
  destruct x as [code [t|v]|e|]; try reflexivity.
  destruct v; try reflexivity. cbn [reply_alike]. auto.
Qed.

Lemma alike_same rs xs : List.length xs = List.length rs -> alike rs xs xs.
Proof.
  revert xs. induction rs as [|[r req] rs IH]; intros [|x xs] Hlen;
    try discriminate; cbn [alike]; [exact I|].
  split; [apply reply_alike_refl | apply IH; now injection Hlen].
Qed.

(** One request on each store: the same reply, up to the order of the
    members of the object [GET /v1/all] sends, the same store operations,
    and the stores mirror each other again. *)
Lemma handle_mirrors config r req st db :
  request_fits (r, req) = true ->
  mirrors st db ->
  reply_alike r (response (handle config r req st))
              (response (handle config r req db)) /\
  calls (handle config r req st) = calls (handle config r req db) /\
  mirrors (store_after (handle config r req st))
          (store_after (handle config r req db)).
Proof.
  intros Hfit HR. destruct r; cbn [handle request_fits fst snd] in *.
  - destruct (@MirrorFacts.perform_mirrors Store.GetAll st db eq_refl HR)
      as [Ho HR'].
    rewrite !perform_getAll in Ho, HR'. cbn [fst snd] in Ho, HR'.
    unfold get_all.
    destruct (store_getAll st) as [c1 s1], (store_getAll db) as [c2 s2].
    cbn [fst snd] in *.
    destruct c1 as [[a|e1]|e1], c2 as [[b|e2]|e2]; cbn [Store.alike] in Ho;
      try discriminate Ho; cbn [response calls store_after].
    + destruct Ho as [Hp Hperm]. unfold of_object. cbn [reply_alike]. auto.
    + injection Ho as ->. cbn [reply_alike]. auto.
    + injection Ho as ->. cbn [reply_alike]. auto.
  - unfold post_nuke. destruct (nuke_allowed config req);
      [|cbn [response calls store_after reply_alike]; auto].
    destruct (@MirrorFacts.perform_mirrors Store.Nuke st db eq_refl HR)
      as [Ho HR'].
    rewrite !perform_nuke in Ho, HR'. cbn [fst snd Store.alike] in Ho, HR'.
    assert (Hc : fst (store_nuke st) = fst (store_nuke db)) by congruence.
    clear Ho.
    destruct (store_nuke st) as [c1 s1], (store_nuke db) as [c2 s2].
    cbn [fst snd] in *. subst c2.
    destruct c1 as [[u|e]|e]; cbn [response calls store_after reply_alike];
      auto.
  - destruct (@MirrorFacts.perform_mirrors
                (Store.Get (params_id req)) st db eq_refl HR) as [Ho HR'].
    rewrite !perform_get in Ho, HR'. cbn [fst snd Store.alike] in Ho, HR'.
    assert (Hc : fst (store_get (params_id req) st) =
                 fst (store_get (params_id req) db)) by congruence.
    clear Ho. unfold get_key.
    destruct (store_get (params_id req) st) as [c1 s1],
             (store_get (params_id req) db) as [c2 s2].
    cbn [fst snd] in *. subst c2.
    destruct c1 as [[x|e]|e]; [destruct x|..];
      cbn [response calls store_after reply_alike]; auto.
  - unfold put_key. destruct (negb (is_json req));
      [cbn [response calls store_after reply_alike]; auto|].
    destruct (@MirrorFacts.perform_mirrors
                (Store.Upsert (params_id req) (body req)) st db Hfit HR)
      as [Ho HR'].
    rewrite !perform_upsert in Ho, HR'. cbn [fst snd Store.alike] in Ho, HR'.
    assert (Hc : fst (store_upsert (params_id req) (body req) st) =
                 fst (store_upsert (params_id req) (body req) db))
      by congruence.
    clear Ho.
    destruct (store_upsert (params_id req) (body req) st) as [c1 s1],
             (store_upsert (params_id req) (body req) db) as [c2 s2].
    cbn [fst snd] in *. subst c2.
    destruct c1 as [[u|e]|e]; cbn [response calls store_after reply_alike];
      auto.
  - destruct (@MirrorFacts.perform_mirrors
                (Store.Delete (params_id req)) st db eq_refl HR) as [Ho HR'].
    rewrite !perform_delete in Ho, HR'. cbn [fst snd Store.alike] in Ho, HR'.
    assert (Hc : fst (store_delete (params_id req) st) =
                 fst (store_delete (params_id req) db)) by congruence.
    clear Ho. unfold delete_key.
    destruct (store_delete (params_id req) st) as [c1 s1],
             (store_delete (params_id req) db) as [c2 s2].
    cbn [fst snd] in *. subst c2.
    destruct c1 as [[n|e]|e]; [destruct (truthy (VNum n))|..];
      cbn [response calls store_after reply_alike]; auto.
Qed.

Lemma answers_mirror config rs st db :
  forallb request_fits rs = true ->
  mirrors st db ->
  alike rs (answers config rs st) (answers config rs db).
Proof.
  revert st db.
  induction rs as [|[r req] rs IH]; intros st db Hfit HR; [exact I|].
  cbn [forallb] in Hfit. apply andb_true_iff in Hfit as [Ho Hrs].
  destruct (handle_mirrors config r req Ho HR) as (Hr & _ & HR').
  cbn [answers]. cbv zeta. cbn [alike]. split; [exact Hr | now apply IH].
Qed.

(** X17. The router answers alike over the two stores: started on an empty
    memory store and on an empty table with the database reachable, the
    same sequence of requests gets the same replies, up to the order of the
    members of the objects [GET /v1/all] sends, whatever the configuration,
    when the keys of its PUTs fit the key column and their bodies convert to
    a string. *)
Theorem X17_router_answers_alike_over_both_stores :
  forall (config : config) (rs : list (route * request)),
    forallb request_fits rs = true ->
    alike rs (answers config rs Memory.new_store)
          (answers config rs (Postgres.new_database None)).
Proof.
  intros config rs Hfit.
  apply answers_mirror; [exact Hfit | apply MirrorFacts.mirrors_new].
Qed.

Lemma X17_router_answers_alike_over_both_stores_witness :
  let rs := [ (PUT_key, Request true "a" (VArr [VNum 1]));
              (PUT_key, Request true "__proto__" (VArr [VNum 2]));
              (PUT_key, Request true "b" (VArr [VNum 3]));
              (PUT_key, Request true "a" (VArr [VNum 4]));
              (GET_key, Request false "__proto__" (VObj None []));
              (GET_all, Request false "" (VObj None []));
              (DELETE_key, Request false "nothing" (VObj None []));
              (POST_nuke, Request true "" confirmation) ] in
  alike rs (answers (Config (VBool true)) rs Memory.new_store)
        (answers (Config (VBool true)) rs (Postgres.new_database None)).
Proof.
  intros rs. apply X17_router_answers_alike_over_both_stores.
  vm_compute. reflexivity.
Defined.

Lemma replies_answers {S : Type} {store_impl : BackingStore S}
      (rs : list (route * request)) (store : S) :
  TestSuite.replies rs store = answers TestSuite.config rs store.
Proof.
  revert store. induction rs as [|[r req] rs IH]; intros store; simpl;
    [reflexivity | now rewrite IH].
Qed.

Lemma nuke_postgres db :
  Postgres.outage db = None ->
  handle TestSuite.config POST_nuke (TestSuite.sending "" confirmation) db =
  Outcome (Send 200 (Text "Deleted all keys.")) (Postgres.new_database None)
          [CallNuke].
Proof.
  intros Hup. cbn [handle]. unfold post_nuke.
  change (nuke_allowed TestSuite.config (TestSuite.sending "" confirmation))
    with true.
  cbn [store_nuke postgres_store forget returned fst snd]. unfold Postgres.nuke.
  now rewrite (@PostgresFacts.query_up _ db Hup).
Qed.

(** The replies of the suite have one order only: the one object
    [GET /v1/all] sends in it is empty. *)
Lemma suite_alike key val val2 ys :
  alike (TestSuite.requests key val val2)
        [ Send 200 (Text "Deleted all keys.");
          Send 200 (Json (VObj None []));
          Send 201 (Text ("Stored `" ++ key ++ "`."));
          Send 200 (Json val);
          Send 404 (Text ("No value for key " ++ TestSuite.unknown key));
          Send 201 (Text ("Stored `" ++ key ++ "`."));
          Send 200 (Json val2);
          Send 200 (Text ("Deleted " ++ key));
          Send 404 (Text ("No value for key " ++ key)) ] ys ->
  ys = [ Send 200 (Text "Deleted all keys.");
         Send 200 (Json (VObj None []));
         Send 201 (Text ("Stored `" ++ key ++ "`."));
         Send 200 (Json val);
         Send 404 (Text ("No value for key " ++ TestSuite.unknown key));
         Send 201 (Text ("Stored `" ++ key ++ "`."));
         Send 200 (Json val2);
         Send 200 (Text ("Deleted " ++ key));
         Send 404 (Text ("No value for key " ++ key)) ].
Proof.
  unfold TestSuite.requests. intros H.
  destruct ys as [|? ys]; cbn [alike] in H; [contradiction|].
  destruct H as [? H].
  repeat match type of H with
         | match ?l with [] => _ | _ :: _ => _ end =>
             destruct l as [|? ?]; [contradiction | destruct H as [? H]]
         end.
  match type of H with
  | match ?l with [] => _ | _ :: _ => _ end => destruct l; [|contradiction]
  end.
  clear H.
  repeat match goal with
         | E : reply_alike GET_all _ ?y |- _ =>
             destruct y as [code [t|[]]|e|]; cbn [reply_alike] in E;
             try discriminate E;
             destruct E as (<- & <- & E);
             apply Permutation_nil in E; subst
         | E : reply_alike _ _ _ |- _ => cbn [reply_alike] in E; subst
         end.
  reflexivity.
Qed.

(** X18. The test suite passes on the Postgres store as well, the
    configuration the test file leaves commented out: with the database
    reachable, whatever the table held before, for every key that fits the
    key column and every pair of values, JSON arrays or objects that convert
    to a string, the nine requests get the statuses and bodies the suite
    expects. *)
Theorem X18_test_suite_passes_on_postgres_store :
  forall (history : list Postgres.op) (key : string) (val val2 : value),
    String.length key <= Postgres.KEY_MAX ->
    is_value val = true -> stringifies val = true ->
    is_value val2 = true -> stringifies val2 = true ->
    Forall2 TestSuite.meets
            (TestSuite.replies
               (TestSuite.requests key val val2)
               (Postgres.run history (Postgres.new_database None)))
            (TestSuite.expectations val val2).
Proof.
  intros history key val val2 Hlen Hv1 Hs1 Hv2 Hs2.
  assert (Hfresh :
            TestSuite.replies
              (TestSuite.requests key val val2)
              (Postgres.run history (Postgres.new_database None)) =
            TestSuite.replies
              (TestSuite.requests key val val2) (Postgres.new_database None)).
  { unfold TestSuite.requests. cbn [TestSuite.replies]. cbv zeta.
    rewrite !nuke_postgres; [reflexivity | reflexivity |].
    now rewrite PostgresFacts.run_outage. }
  assert (Hfit : forallb request_fits (TestSuite.requests key val val2) = true).
  { apply Nat.leb_le in Hlen. unfold TestSuite.requests.
    cbn [forallb request_fits fst snd TestSuite.sending TestSuite.bare
         params_id body].
    now rewrite Hlen, Hs1, Hs2. }
  pose proof (@answers_mirror TestSuite.config _ Memory.new_store
                (Postgres.new_database None) Hfit MirrorFacts.mirrors_new)
    as Ha.
  rewrite <- !replies_answers in Ha.
  pose proof (@TestSuiteFacts.replies_of_suite [] key val val2
                Hv1 Hs1 Hv2 Hs2) as H.
  cbn [Memory.run fold_left] in H. rewrite H in Ha.
  apply suite_alike in Ha. rewrite Hfresh, Ha.
  apply TestSuiteFacts.suite_meets.
Qed.

Lemma X18_test_suite_passes_on_postgres_store_witness :
  let key := "';-- DROP TABLE STORE" in
  let val := VArr [VNull; VStr "that was null"] in
  let val2 := VObj None [("null-key", VNull)] in
  Forall2 TestSuite.meets
          (TestSuite.replies
             (TestSuite.requests key val val2)
             (Postgres.run [Postgres.Upsert "left over" (VArr [])]
                           (Postgres.new_database None)))
          (TestSuite.expectations val val2).
Proof.
  intros key val val2.
  assert (Hlen : String.length key <= Postgres.KEY_MAX)
    by (apply Nat.leb_le; reflexivity).
  exact (@X18_test_suite_passes_on_postgres_store
           [Postgres.Upsert "left over" (VArr [])] key val val2 Hlen
           eq_refl eq_refl eq_refl eq_refl).
Defined.

End SessionFacts.
